(** * KVM dirty ring: a shallow embedding of virt/kvm/dirty_ring.c

    The ring is a fixed array of [kvm_dirty_gfn] entries indexed by two
    free-running u32 counters.  The producer ([kvm_dirty_ring_push]) writes
    at [dirty_index], the consumer side ([kvm_dirty_ring_reset]) walks from
    [reset_index] to the [fetch_index] that userspace published and hands
    coalesced (slot, offset, mask) batches to [kvm_reset_dirty_gfn].

    C integers are modelled as [Z] with the wrap-around written out;
    the array as a list read and updated by index; the external
    [kvm_reset_dirty_gfn] as a log of the calls made, in order. *)

From Stdlib Require Import ZArith Lia Bool.
From stdpp Require Import base list.

Local Open Scope Z_scope.

(** ** Machine integers *)

Definition u32 (x : Z) : Z := x mod 2 ^ 32.
Definition u64 (x : Z) : Z := x mod 2 ^ 64.

(** Conversion to a signed type: reduce modulo the width, read as two's
    complement. *)
Definition s64 (x : Z) : Z := (x + 2 ^ 63) mod 2 ^ 64 - 2 ^ 63.
Definition int (x : Z) : Z := (x + 2 ^ 31) mod 2 ^ 32 - 2 ^ 31.

Definition INT_MAX : Z := 2 ^ 31 - 1.

(** Modelled from the spec: the BITS_PER_LONG macro is declared outside
    the sources at hand; the mask is "a bit-per-page accumulator, width =
    machine word, e.g. 64 bits".  [unsigned long] has that width. *)
Definition BITS_PER_LONG : Z := 64.
Definition ulong (x : Z) : Z := u64 x.

(** Modelled from the spec: the errno macros are declared outside the
    sources at hand; the spec names the three outcomes AllocationError,
    Busy and InvalidRange, returned negated as -ENOMEM, -EBUSY and
    -EINVAL.  The values are those of errno-base.h. *)
Definition ENOMEM : Z := 12.
Definition EBUSY : Z := 16.
Definition EINVAL : Z := 22.

Definition is_u32 (x : Z) : Prop := 0 <= x < 2 ^ 32.
Definition is_u64 (x : Z) : Prop := 0 <= x < 2 ^ 64.

(** ** Data *)

(** Modelled from the spec: [struct kvm_dirty_gfn] is declared in the uapi
    header, outside the sources at hand; an entry is
    "{ slot: u32, offset: u64 }".  These are the two fields the code reads
    and writes. *)
Record kvm_dirty_gfn : Type := {
  slot : Z;
  offset : Z;
}.

(** Modelled from the spec: [struct kvm_dirty_ring_indices] is declared
    in the uapi header, outside the sources at hand; it is
    "{fetch_index: 4 bytes, avail_index: 4 bytes}", [fetch_index] written
    by userspace and [avail_index] by the kernel. *)
Record kvm_dirty_ring_indices : Type := {
  avail_index : Z;
  fetch_index : Z;
}.

(** [struct kvm_dirty_ring] of include/linux/kvm_dirty_ring.h.  The
    [indices] pointer is modelled by the structure it points to: each ring
    has its own. *)
Record kvm_dirty_ring : Type := {
  dirty_index : Z;
  reset_index : Z;
  size : Z;
  soft_limit : Z;
  dirty_gfns : list kvm_dirty_gfn;
  indices : kvm_dirty_ring_indices;
  index : Z;
}.

Definition zero_gfn : kvm_dirty_gfn := {| slot := 0; offset := 0 |}.

Definition set_dirty_index (ring : kvm_dirty_ring) (v : Z) : kvm_dirty_ring :=
  {| dirty_index := v; reset_index := reset_index ring; size := size ring;
     soft_limit := soft_limit ring; dirty_gfns := dirty_gfns ring;
     indices := indices ring; index := index ring |}.

Definition set_reset_index (ring : kvm_dirty_ring) (v : Z) : kvm_dirty_ring :=
  {| dirty_index := dirty_index ring; reset_index := v; size := size ring;
     soft_limit := soft_limit ring; dirty_gfns := dirty_gfns ring;
     indices := indices ring; index := index ring |}.

Definition set_dirty_gfns (ring : kvm_dirty_ring) (l : list kvm_dirty_gfn)
  : kvm_dirty_ring :=
  {| dirty_index := dirty_index ring; reset_index := reset_index ring;
     size := size ring; soft_limit := soft_limit ring; dirty_gfns := l;
     indices := indices ring; index := index ring |}.

Definition set_indices (ring : kvm_dirty_ring) (i : kvm_dirty_ring_indices)
  : kvm_dirty_ring :=
  {| dirty_index := dirty_index ring; reset_index := reset_index ring;
     size := size ring; soft_limit := soft_limit ring;
     dirty_gfns := dirty_gfns ring; indices := i; index := index ring |}.

(** WRITE_ONCE(indices->avail_index, v). *)
Definition write_avail_index (ring : kvm_dirty_ring) (v : Z) : kvm_dirty_ring :=
  set_indices ring
    {| avail_index := v; fetch_index := fetch_index (indices ring) |}.

(** Userspace stores a value of its choice into the shared [fetch_index]. *)
Definition user_write_fetch_index (ring : kvm_dirty_ring) (v : Z)
  : kvm_dirty_ring :=
  set_indices ring
    {| avail_index := avail_index (indices ring); fetch_index := v |}.

(** [&ring->dirty_gfns[i]] read: an index outside the array is outside the
    allocation in C; the model reads a zero entry there. *)
Definition gfn_at (ring : kvm_dirty_ring) (i : Z) : kvm_dirty_gfn :=
  default zero_gfn (dirty_gfns ring !! Z.to_nat i).

(** [entry->slot = s; entry->offset = o] through [&ring->dirty_gfns[i]]:
    both fields of the entry in place are overwritten.  Outside the array
    the model leaves the list as it is. *)
Definition store_gfn (ring : kvm_dirty_ring) (i : Z) (s o : Z) : kvm_dirty_ring :=
  let entry := gfn_at ring i in
  let entry := {| slot := s; offset := offset entry |} in
  let entry := {| slot := slot entry; offset := o |} in
  set_dirty_gfns ring (<[Z.to_nat i := entry]> (dirty_gfns ring)).

(** The physical position of a free-running counter:
    [idx & (ring->size - 1)], the subtraction in u32. *)
Definition ring_slot (ring : kvm_dirty_ring) (idx : Z) : Z :=
  Z.land idx (u32 (size ring - 1)).

(** ** Capacity queries *)

Definition kvm_dirty_ring_used (ring : kvm_dirty_ring) : Z :=
  u32 (dirty_index ring - reset_index ring).

Definition kvm_dirty_ring_soft_full (ring : kvm_dirty_ring) : bool :=
  soft_limit ring <=? kvm_dirty_ring_used ring.

Definition kvm_dirty_ring_full (ring : kvm_dirty_ring) : bool :=
  size ring <=? kvm_dirty_ring_used ring.

(** ** Push *)

(** What a call of [kvm_dirty_ring_push] produces: the int it returns,
    whether the condition of WARN_ON_ONCE(kvm_dirty_ring_full(ring)) held,
    and the ring afterwards. *)
Record push_result : Type := {
  push_ret : Z;
  push_warned : bool;
  push_ring : kvm_dirty_ring;
}.

Definition is_null {A : Type} (p : option A) : bool :=
  match p with None => true | Some _ => false end.

(** [running_vcpu] is the result of kvm_get_running_vcpu(): [None] for
    NULL, otherwise the id of the vCPU whose context the caller runs in.
    The tracepoint at the end has no effect on the ring. *)
Definition kvm_dirty_ring_push (running_vcpu : option Z)
    (ring : kvm_dirty_ring) (slot offset : Z) : push_result :=
  if is_null running_vcpu && kvm_dirty_ring_soft_full ring
  then {| push_ret := - EBUSY; push_warned := false; push_ring := ring |}
  else
    let warned := kvm_dirty_ring_full ring in
    let ring := store_gfn ring (ring_slot ring (dirty_index ring)) slot offset in
    (* smp_wmb() *)
    let ring := set_dirty_index ring (u32 (dirty_index ring + 1)) in
    let ring := write_avail_index ring (dirty_index ring) in
    {| push_ret := 0; push_warned := warned; push_ring := ring |}.

(** ** Reset *)

(** One call [kvm_reset_dirty_gfn(kvm, slot, offset, mask)].  The callee
    lives in kvm_main.c and works on the memslots, not on the ring; the
    model logs the arguments of each call. *)
Record reset_call : Type := {
  call_slot : Z;
  call_offset : Z;
  call_mask : Z;
}.

(** The locals of [kvm_dirty_ring_reset] that live across iterations. *)
Record reset_locals : Type := {
  cur_slot : Z;
  cur_offset : Z;
  mask : Z;
  count : Z;
  first_round : bool;
}.

Record reset_state : Type := {
  rs_ring : kvm_dirty_ring;
  rs_locals : reset_locals;
  rs_calls : list reset_call;
}.

Definition flush_call (l : reset_locals) : reset_call :=
  {| call_slot := cur_slot l; call_offset := cur_offset l; call_mask := mask l |}.

(** The part of the loop body after the entry has been read: [count++],
    then the attempt to coalesce [(next_slot, next_offset)] into the
    accumulated batch.  The two [continue] branches keep the batch and
    call nothing; every other path, the first round included, calls
    [kvm_reset_dirty_gfn] on the batch and reseeds it from the entry.
    The result is the locals afterwards and the calls made. *)
Definition coalesce (l : reset_locals) (next_slot next_offset : Z)
  : reset_locals * list reset_call :=
  let count := int (count l + 1) in
  let flush_and_reseed :=
    ({| cur_slot := next_slot; cur_offset := next_offset; mask := 1;
        count := count; first_round := false |},
     [flush_call l]) in
  if negb (first_round l) && (next_slot =? cur_slot l) then
    let delta := s64 (next_offset - cur_offset l) in
    if (0 <=? delta) && (delta <? BITS_PER_LONG) then
      ({| cur_slot := cur_slot l; cur_offset := cur_offset l;
          mask := ulong (Z.lor (mask l) (u64 (Z.shiftl 1 delta)));
          count := count; first_round := first_round l |},
       [])
    else if (- BITS_PER_LONG <? delta) && (delta <? 0) &&
            (Z.shiftr (ulong (Z.shiftl (mask l) (- delta))) (- delta) =? mask l)
    then
      ({| cur_slot := cur_slot l; cur_offset := next_offset;
          mask := Z.lor (ulong (Z.shiftl (mask l) (- delta))) 1;
          count := count; first_round := first_round l |},
       [])
    else flush_and_reseed
  else flush_and_reseed.

(** The body of the while loop, one iteration: read the entry at
    [reset_index], advance [reset_index], coalesce. *)
Definition reset_body (st : reset_state) : reset_state :=
  let ring := rs_ring st in
  let entry := gfn_at ring (ring_slot ring (reset_index ring)) in
  let next_slot := slot entry in
  let next_offset := offset entry in
  let ring := set_reset_index ring (u32 (reset_index ring + 1)) in
  let (l, calls) := coalesce (rs_locals st) next_slot next_offset in
  {| rs_ring := ring; rs_locals := l; rs_calls := rs_calls st ++ calls |}.

(** [while (ring->reset_index != fetch) body].  [None] when [fuel]
    iterations were not enough to reach [fetch]. *)
Fixpoint reset_while (fuel : nat) (fetch : Z) (st : reset_state)
  : option reset_state :=
  if reset_index (rs_ring st) =? fetch then Some st
  else match fuel with
       | O => None
       | S fuel => reset_while fuel fetch (reset_body st)
       end.

(** What a call of [kvm_dirty_ring_reset] produces: the int it returns,
    the ring afterwards and the calls of [kvm_reset_dirty_gfn] it made. *)
Record reset_result : Type := {
  reset_ret : Z;
  reset_ring : kvm_dirty_ring;
  reset_calls : list reset_call;
}.

(** The locals before the loop: [count = 0], [first_round = true],
    [cur_slot = cur_offset = mask = 0]. *)
Definition reset_locals0 : reset_locals :=
  {| cur_slot := 0; cur_offset := 0; mask := 0; count := 0;
     first_round := true |}.

(** The range check on the untrusted [fetch_index]:
    [fetch - ring->reset_index > ring->size], in u32. *)
Definition fetch_out_of_range (ring : kvm_dirty_ring) (fetch : Z) : bool :=
  size ring <? u32 (fetch - reset_index ring).

(** [kvm_dirty_ring_reset].  The loop is given as many iterations as the
    u32 distance from [reset_index] to [fetch]; [reset_while_fuel] shows
    that the loop leaves by its own condition within them, so the result
    is [None] for no ring with in-range counters. *)
Definition kvm_dirty_ring_reset (ring : kvm_dirty_ring) : option reset_result :=
  let fetch := fetch_index (indices ring) in
  if fetch_out_of_range ring fetch then
    Some {| reset_ret := - EINVAL; reset_ring := ring; reset_calls := [] |}
  else if fetch =? reset_index ring then
    Some {| reset_ret := 0; reset_ring := ring; reset_calls := [] |}
  else
    let st := {| rs_ring := ring; rs_locals := reset_locals0;
                 rs_calls := [] |} in
    match reset_while (Z.to_nat (u32 (fetch - reset_index ring))) fetch st with
    | None => None
    | Some st =>
        Some {| reset_ret := count (rs_locals st);
                reset_ring := rs_ring st;
                reset_calls := rs_calls st ++ [flush_call (rs_locals st)] |}
    end.

(** ** Allocation *)

Section Alloc.

(** Build-time quantities declared outside the sources at hand:
    sizeof(struct kvm_dirty_gfn), the KVM_DIRTY_RING_RSVD_ENTRIES macro,
    and the value of [kvm_cpu_dirty_log_size()], whose __weak default
    returns 0 and which an architecture may override. *)
Variable sizeof_kvm_dirty_gfn : Z.
Variable KVM_DIRTY_RING_RSVD_ENTRIES : Z.
Variable kvm_cpu_dirty_log_size : Z.

Definition kvm_dirty_ring_get_rsvd_entries : Z :=
  u32 (KVM_DIRTY_RING_RSVD_ENTRIES + kvm_cpu_dirty_log_size).

(** [kvm_dirty_ring_alloc(ring, indices, index, size)], [size] in bytes.
    [vmalloc_ok] tells whether vmalloc returned memory.  On failure only
    the NULL [dirty_gfns] pointer has been stored. *)
Definition kvm_dirty_ring_alloc (vmalloc_ok : bool) (ring : kvm_dirty_ring)
    (indices : kvm_dirty_ring_indices) (index : Z) (size : Z)
  : Z * kvm_dirty_ring :=
  if negb vmalloc_ok then (- ENOMEM, set_dirty_gfns ring [])
  else
    let entries := u32 (size / sizeof_kvm_dirty_gfn) in
    (0, {| dirty_index := 0;
           reset_index := 0;
           size := entries;
           soft_limit := u32 (entries - kvm_dirty_ring_get_rsvd_entries);
           dirty_gfns := replicate (Z.to_nat entries) zero_gfn;
           indices := indices;
           index := index |}).

End Alloc.

(** ** Well-formed rings *)

(** Every counter holds a value of its C type. *)
Record ring_wf (ring : kvm_dirty_ring) : Prop := {
  wf_dirty_index : is_u32 (dirty_index ring);
  wf_reset_index : is_u32 (reset_index ring);
  wf_size : is_u32 (size ring);
  wf_soft_limit : is_u32 (soft_limit ring);
  wf_avail_index : is_u32 (avail_index (indices ring));
  wf_fetch_index : is_u32 (fetch_index (indices ring));
}.

(** The entry count is a power of two, as [idx & (size - 1)] expects. *)
Definition ring_pow2 (ring : kvm_dirty_ring) : Prop :=
  exists k, 0 <= k < 32 /\ size ring = 2 ^ k.

(** [dirty_gfns] has [size] entries. *)
Definition ring_backed (ring : kvm_dirty_ring) : Prop :=
  Z.of_nat (length (dirty_gfns ring)) = size ring.

(** ** Drivers *)

(** One request to push, with the context it is made in. *)
Record push_req : Type := {
  req_vcpu : option Z;
  req_slot : Z;
  req_offset : Z;
}.

(** The entry a request asks to record. *)
Definition gfn_of_req (q : push_req) : kvm_dirty_gfn :=
  {| slot := req_slot q; offset := req_offset q |}.

(** A sequence of pushes each of which returns 0; [None] as soon as one
    does not. *)
Fixpoint push_seq (ring : kvm_dirty_ring) (reqs : list push_req)
  : option kvm_dirty_ring :=
  match reqs with
  | [] => Some ring
  | q :: reqs =>
      let res := kvm_dirty_ring_push (req_vcpu q) ring (req_slot q) (req_offset q) in
      if push_ret res =? 0 then push_seq (push_ring res) reqs else None
  end.

(** Userspace publishes [fetch_index = dirty_index] (everything pushed so
    far has been harvested) and the ring is reset. *)
Definition harvest_all (ring : kvm_dirty_ring) : option reset_result :=
  kvm_dirty_ring_reset (user_write_fetch_index ring (dirty_index ring)).

(** The events in the life of a ring. *)
Inductive ring_op : Type :=
| OpPush (running_vcpu : option Z) (slot offset : Z)
| OpFetch (fetch : Z)
| OpReset.

(** [ring_step guarded ring op]: the ring after [op], with the number of
    entries the event pushed and the number it consumed.  A push counts
    when it returns 0, a reset when it returns a count; userspace may
    store any u32 into [fetch_index].  With [guarded] set, a push is only
    made on a ring that is not full and a reset only when the published
    [fetch_index] is no further from [reset_index] than [dirty_index]
    is. *)
Definition ring_step (guarded : bool) (ring : kvm_dirty_ring) (op : ring_op)
  : option (kvm_dirty_ring * Z * Z) :=
  match op with
  | OpPush v s o =>
      let res := kvm_dirty_ring_push v ring s o in
      if (push_ret res =? 0) && implb guarded (negb (kvm_dirty_ring_full ring))
      then Some (push_ring res, 1, 0) else None
  | OpFetch f =>
      if (0 <=? f) && (f <? 2 ^ 32)
      then Some (user_write_fetch_index ring f, 0, 0) else None
  | OpReset =>
      match kvm_dirty_ring_reset ring with
      | Some res =>
          if (0 <=? reset_ret res) &&
             implb guarded
               (u32 (fetch_index (indices ring) - reset_index ring)
                  <=? kvm_dirty_ring_used ring)
          then Some (reset_ring res, 0, reset_ret res) else None
      | None => None
      end
  end.

(** [ring_run guarded ring0 ring pushed consumed]: [ring] is reached from
    [ring0] by some interleaving of the events above, [pushed] entries
    having been pushed and [consumed] consumed in all (unbounded
    counts). *)
Inductive ring_run (guarded : bool) (ring0 : kvm_dirty_ring)
  : kvm_dirty_ring -> Z -> Z -> Prop :=
| run_nil : ring_run guarded ring0 ring0 0 0
| run_step ring op ring' pushed consumed p c :
    ring_run guarded ring0 ring pushed consumed ->
    ring_step guarded ring op = Some (ring', p, c) ->
    ring_run guarded ring0 ring' (pushed + p) (consumed + c).

(** The same, as a function of the list of events. *)
Fixpoint run_ops (guarded : bool) (ring : kvm_dirty_ring)
    (pushed consumed : Z) (ops : list ring_op)
  : option (kvm_dirty_ring * Z * Z) :=
  match ops with
  | [] => Some (ring, pushed, consumed)
  | op :: ops =>
      match ring_step guarded ring op with
      | Some (ring', p, c) =>
          run_ops guarded ring' (pushed + p) (consumed + c) ops
      | None => None
      end
  end.

(** The invariant on the two counters, read without wrap-around:
    [pushed] and [consumed] are the unbounded counts whose low 32 bits the
    ring holds. *)
Definition counters_ok (ring : kvm_dirty_ring) (pushed consumed : Z) : Prop :=
  dirty_index ring = u32 pushed /\
  reset_index ring = u32 consumed /\
  consumed <= pushed <= consumed + size ring.

(** ** The walk of the reset loop, as a list *)

(** The [n] entries the loop reads when it starts at counter value
    [start]. *)
Fixpoint walk (ring : kvm_dirty_ring) (start : Z) (n : nat)
  : list kvm_dirty_gfn :=
  match n with
  | O => []
  | S n => gfn_at ring (ring_slot ring start) :: walk ring (u32 (start + 1)) n
  end.

(** [coalesce] over a list of entries, in order. *)
Fixpoint coalesce_all (l : reset_locals) (es : list kvm_dirty_gfn)
  : reset_locals * list reset_call :=
  match es with
  | [] => (l, [])
  | e :: es =>
      let (l1, c1) := coalesce l (slot e) (offset e) in
      let (l2, c2) := coalesce_all l1 es in
      (l2, c1 ++ c2)
  end.

(** ** The older per-vCPU variant of push

    The sources also hold an earlier revision of the file, in which the
    ring is reached through its vCPU, push takes the ring's spinlock and
    the indices live in [vcpu->run->dirty_ring_indexes].  Its structure
    declarations are not at hand; the counters are taken as u32, as in the
    header of the current revision. *)
Module PerVcpu.

Definition u16 (x : Z) : Z := x mod 2 ^ 16.

(** [num] is a u16.  The WARN_ON_ONCE on the busy path and the spinlock
    leave no trace in the result.  [dirty_index % size] is only reached
    with [num < size], hence a non-zero [size]. *)
Definition kvm_dirty_ring_push (ring : kvm_dirty_ring) (slot offset : Z)
  : Z * kvm_dirty_ring :=
  let num := u16 (u32 (dirty_index ring - reset_index ring)) in
  if size ring <=? num then (- EBUSY, ring)
  else
    let ring := store_gfn ring (ring_slot ring (dirty_index ring)) slot offset in
    let ring := set_dirty_index ring (u32 (dirty_index ring + 1)) in
    let num := u16 (u32 (dirty_index ring - reset_index ring)) in
    let ring := write_avail_index ring (dirty_index ring mod size ring) in
    ((if soft_limit ring <=? num then 1 else 0), ring).

(** [ring->reset_index & (ring->size - 1)]. *)
Definition kvm_dirty_ring_reset_index (ring : kvm_dirty_ring) : Z :=
  Z.land (reset_index ring) (u32 (size ring - 1)).

(** The part of the loop body after the entry has been read.  Here
    [delta] is an [int], there is no first round, and a flush is made only
    when the entry cannot join the batch. *)
Definition coalesce (l : reset_locals) (next_slot next_offset : Z)
  : reset_locals * list reset_call :=
  let count := int (count l + 1) in
  let flush_and_reseed :=
    ({| cur_slot := next_slot; cur_offset := next_offset; mask := 1;
        count := count; first_round := first_round l |},
     [flush_call l]) in
  if next_slot =? cur_slot l then
    let delta := int (u64 (next_offset - cur_offset l)) in
    if (0 <=? delta) && (delta <? BITS_PER_LONG) then
      ({| cur_slot := cur_slot l; cur_offset := cur_offset l;
          mask := ulong (Z.lor (mask l) (u64 (Z.shiftl 1 delta)));
          count := count; first_round := first_round l |},
       [])
    else if (- BITS_PER_LONG <? delta) && (delta <? 0) &&
            (Z.shiftr (ulong (Z.shiftl (mask l) (- delta))) (- delta) =? mask l)
    then
      ({| cur_slot := cur_slot l; cur_offset := next_offset;
          mask := Z.lor (ulong (Z.shiftl (mask l) (- delta))) 1;
          count := count; first_round := first_round l |},
       [])
    else flush_and_reseed
  else flush_and_reseed.

Definition reset_body (st : reset_state) : reset_state :=
  let ring := rs_ring st in
  let entry := gfn_at ring (kvm_dirty_ring_reset_index ring) in
  let next_slot := slot entry in
  let next_offset := offset entry in
  let ring := set_reset_index ring (u32 (reset_index ring + 1)) in
  let (l, calls) := coalesce (rs_locals st) next_slot next_offset in
  {| rs_ring := ring; rs_locals := l; rs_calls := rs_calls st ++ calls |}.

(** [while (kvm_dirty_ring_reset_index(ring) != fetch) body]. *)
Fixpoint reset_while (fuel : nat) (fetch : Z) (st : reset_state)
  : option reset_state :=
  if kvm_dirty_ring_reset_index (rs_ring st) =? fetch then Some st
  else match fuel with
       | O => None
       | S fuel => reset_while fuel fetch (reset_body st)
       end.

(** [kvm_dirty_ring_reset(vcpu)]: the published [fetch_index] is reduced
    with [size - 1] and compared with the reduced [reset_index]; the first
    entry seeds the batch before the loop.  The loop is given [size]
    iterations, which are enough when [size] is a power of two
    ([pervcpu_reset_spec]); [None] when they are not. *)
Definition kvm_dirty_ring_reset (ring : kvm_dirty_ring) : option reset_result :=
  let fetch := fetch_index (indices ring) in
  let fetch := Z.land fetch (u32 (size ring - 1)) in
  if fetch =? kvm_dirty_ring_reset_index ring then
    Some {| reset_ret := 0; reset_ring := ring; reset_calls := [] |}
  else
    let entry := gfn_at ring (kvm_dirty_ring_reset_index ring) in
    let st := {| rs_ring := set_reset_index ring (u32 (reset_index ring + 1));
                 rs_locals := {| cur_slot := slot entry;
                                 cur_offset := offset entry;
                                 mask := 1; count := 1;
                                 first_round := false |};
                 rs_calls := [] |} in
    match reset_while (Z.to_nat (size ring)) fetch st with
    | None => None
    | Some st =>
        Some {| reset_ret := count (rs_locals st);
                reset_ring := rs_ring st;
                reset_calls := rs_calls st ++ [flush_call (rs_locals st)] |}
    end.

End PerVcpu.

(** ** Concrete rings

    A 2048-byte ring on a build with 16-byte entries, 64 reserved entries
    and no per-CPU dirty log: 128 entries, [soft_limit] 64. *)

Definition zero_indices : kvm_dirty_ring_indices :=
  {| avail_index := 0; fetch_index := 0 |}.

Definition zero_ring : kvm_dirty_ring :=
  {| dirty_index := 0; reset_index := 0; size := 0; soft_limit := 0;
     dirty_gfns := []; indices := zero_indices; index := 0 |}.

Definition example_ring : kvm_dirty_ring :=
  snd (kvm_dirty_ring_alloc 16 64 0 true zero_ring zero_indices 0 2048).

(** [example_ring] after one push of (7, 9) from vCPU 0, userspace having
    published [fetch_index = 1]. *)
Definition example_ring_one : kvm_dirty_ring :=
  user_write_fetch_index
    (push_ring (kvm_dirty_ring_push (Some 0) example_ring 7 9)) 1.

(** A ring that has wrapped: 2^32 - 2 entries consumed, 2^32 + 1 pushed,
    so that [dirty_index] is 1 and [reset_index] is 2^32 - 2. *)
Definition example_ring_wrapped : kvm_dirty_ring :=
  {| dirty_index := 1; reset_index := 2 ^ 32 - 2; size := 128;
     soft_limit := 64; dirty_gfns := replicate 128 zero_gfn;
     indices := {| avail_index := 1; fetch_index := 2 ^ 32 - 2 |};
     index := 0 |}.

(** [example_ring] with 100 entries pushed and none consumed: above
    [soft_limit], below [size]. *)
Definition example_ring_soft_full : kvm_dirty_ring :=
  {| dirty_index := 100; reset_index := 0; size := 128; soft_limit := 64;
     dirty_gfns := replicate 128 zero_gfn;
     indices := {| avail_index := 100; fetch_index := 0 |};
     index := 0 |}.

(** The locals after one entry [(s, o)] has seeded the batch, with mask
    [m]. *)
Definition seeded (s o m : Z) : reset_locals :=
  {| cur_slot := s; cur_offset := o; mask := m; count := 1;
     first_round := false |}.

Definition three_ascending (v : option Z) : list push_req :=
  [ {| req_vcpu := v; req_slot := 1; req_offset := 0 |};
    {| req_vcpu := v; req_slot := 1; req_offset := 1 |};
    {| req_vcpu := v; req_slot := 1; req_offset := 2 |} ].

Definition backward_pair (v : option Z) : list push_req :=
  [ {| req_vcpu := v; req_slot := 1; req_offset := 5 |};
    {| req_vcpu := v; req_slot := 1; req_offset := 3 |} ].

(** The calls of [kvm_reset_dirty_gfn] made when [reqs] are pushed into
    [ring] and everything is harvested; [None] if a push or the reset
    does not return. *)
Definition harvest_calls (ring : kvm_dirty_ring) (reqs : list push_req)
  : option (list reset_call) :=
  match push_seq ring reqs with
  | Some ring' =>
      match harvest_all ring' with
      | Some res => Some (reset_calls res)
      | None => None
      end
  | None => None
  end.

(** Two pushes, the second without a vCPU context; userspace harvests
    the first entry; reset. *)
Definition example_ops : list ring_op :=
  [ OpPush (Some 0) 1 0; OpPush None 1 1; OpFetch 1; OpReset ].

(** ** The ring as a queue, and the pages a call names *)

(** The entries pushed and not yet consumed, oldest first. *)
Definition pending (ring : kvm_dirty_ring) : list kvm_dirty_gfn :=
  walk ring (reset_index ring) (Z.to_nat (kvm_dirty_ring_used ring)).

Definition gfn_page (e : kvm_dirty_gfn) : Z * Z := (slot e, offset e).

(** An entry holds a u32 and a u64. *)
Definition gfn_wf (e : kvm_dirty_gfn) : Prop :=
  is_u32 (slot e) /\ is_u64 (offset e).

Definition gfns_wf (ring : kvm_dirty_ring) : Prop :=
  Forall gfn_wf (dirty_gfns ring).

(** Modelled from the spec: [kvm_reset_dirty_gfn] is defined outside the
    sources at hand; its contract is "a slot id, a base offset, and a
    bitmask where bit i denotes page base_offset + i".  The pages of slot
    [call_slot] a call names, the offset addition in u64. *)
Definition call_pages (c : reset_call) : list (Z * Z) :=
  map (fun i => (call_slot c, u64 (call_offset c + i)))
    (List.filter (Z.testbit (call_mask c)) (seqZ 0 BITS_PER_LONG)).

Definition calls_pages (cs : list reset_call) : list (Z * Z) :=
  concat (map call_pages cs).

(** The calls that name a page at all: those whose mask has a bit set. *)
Definition nonempty_calls (cs : list reset_call) : list reset_call :=
  List.filter (fun c => negb (call_mask c =? 0)) cs.

(** ** Ring selection *)

(** Modelled from the spec: [struct kvm] and [struct kvm_vcpu] are declared
    outside the sources at hand.  A vCPU is identified by the VM it
    belongs to ([vcpu->kvm]) and its id; of a VM the code uses the
    [vcpus] array and [dirty_ring_lock], "a dedicated lock" serializing
    the accesses to the default ring.  A ring pointer [&vcpu->dirty_ring]
    is identified by its vCPU. *)
Record kvm_vcpu : Type := {
  vcpu_kvm : Z;
  vcpu_id : Z;
}.

Record kvm : Type := {
  kvm_id : Z;
  vcpus : list kvm_vcpu;
  dirty_ring_lock : bool;
}.

Definition vcpu_eqb (a b : kvm_vcpu) : bool :=
  (vcpu_kvm a =? vcpu_kvm b) && (vcpu_id a =? vcpu_id b).

Definition set_dirty_ring_lock (k : kvm) (held : bool) : kvm :=
  {| kvm_id := kvm_id k; vcpus := vcpus k; dirty_ring_lock := held |}.

(** What [kvm_dirty_ring_get] produces: the vCPU whose ring is returned,
    whether pr_warn_once was reached, whether the condition of
    WARN_ON_ONCE(vcpu->kvm != kvm) held, and the VM afterwards. *)
Record get_result : Type := {
  get_ring_of : kvm_vcpu;
  get_no_context : bool;
  get_warned : bool;
  get_kvm : kvm;
}.

(** The vCPU both functions work on: the running one, and [kvm->vcpus[0]]
    only when there is none.  [None] stands for the NULL pointer that
    [vcpus[0]] holds when no vCPU was created. *)
Definition select_vcpu (running_vcpu : option kvm_vcpu) (k : kvm)
  : option kvm_vcpu :=
  match running_vcpu with
  | Some vcpu => Some vcpu
  | None => vcpus k !! 0%nat
  end.

(** [vcpu == kvm->vcpus[0]] for a vCPU at hand: a comparison of pointers,
    false when [vcpus[0]] is NULL. *)
Definition is_vcpu0 (k : kvm) (vcpu : kvm_vcpu) : bool :=
  match vcpus k !! 0%nat with
  | Some vcpu0 => vcpu_eqb vcpu vcpu0
  | None => false
  end.

(** [kvm_dirty_ring_get].  [None] when the call does not return: there is
    neither a running vCPU nor a [vcpus[0]] to fall back on (a NULL
    dereference in C), or [spin_lock] finds the lock held and spins. *)
Definition kvm_dirty_ring_get (running_vcpu : option kvm_vcpu) (k : kvm)
  : option get_result :=
  match select_vcpu running_vcpu k with
  | None => None
  | Some vcpu =>
      let warned := negb (vcpu_kvm vcpu =? kvm_id k) in
      if is_vcpu0 k vcpu then
        if dirty_ring_lock k then None
        else Some {| get_ring_of := vcpu;
                     get_no_context := is_null running_vcpu;
                     get_warned := warned;
                     get_kvm := set_dirty_ring_lock k true |}
      else Some {| get_ring_of := vcpu;
                   get_no_context := is_null running_vcpu;
                   get_warned := warned;
                   get_kvm := k |}
  end.

(** What [kvm_dirty_ring_put] produces: whether the conditions of its two
    WARN_ON_ONCE held, and the VM afterwards. *)
Record put_result : Type := {
  put_warned_kvm : bool;
  put_warned_ring : bool;
  put_kvm : kvm;
}.

(** [kvm_dirty_ring_put(kvm, ring)], [ring] given by the vCPU it belongs
    to.  [None] when there is neither a running vCPU nor a [vcpus[0]].
    [spin_unlock] leaves the lock free. *)
Definition kvm_dirty_ring_put (running_vcpu : option kvm_vcpu) (k : kvm)
    (ring_of : kvm_vcpu) : option put_result :=
  match select_vcpu running_vcpu k with
  | None => None
  | Some vcpu =>
      Some {| put_warned_kvm := negb (vcpu_kvm vcpu =? kvm_id k);
              put_warned_ring := negb (vcpu_eqb vcpu ring_of);
              put_kvm := if is_vcpu0 k vcpu
                         then set_dirty_ring_lock k false else k |}
  end.

(** ** LRU list selection (include/linux/mm_inline.h) *)

Module MmInline.

(** Modelled from the spec: [struct page] and its flag accessors are
    declared outside the sources at hand; the spec only names "an LRU
    list helper".  Of a page the code reads and clears these three
    flags. *)
Record page : Type := {
  PageSwapBacked : bool;
  PageUnevictable : bool;
  PageActive : bool;
}.

Definition __ClearPageUnevictable (p : page) : page :=
  {| PageSwapBacked := PageSwapBacked p; PageUnevictable := false;
     PageActive := PageActive p |}.

Definition __ClearPageActive (p : page) : page :=
  {| PageSwapBacked := PageSwapBacked p;
     PageUnevictable := PageUnevictable p; PageActive := false |}.

Section Lru.

(** The enumerators of [enum lru_list] the code names, declared outside
    the sources at hand. *)
Variable LRU_INACTIVE_ANON : Z.
Variable LRU_INACTIVE_FILE : Z.
Variable LRU_UNEVICTABLE : Z.
Variable LRU_ACTIVE : Z.

Definition page_is_file_lru (p : page) : Z :=
  if negb (PageSwapBacked p) then 1 else 0.

Definition page_lru_base_type (p : page) : Z :=
  if negb (page_is_file_lru p =? 0) then LRU_INACTIVE_FILE
  else LRU_INACTIVE_ANON.

(** [page_off_lru]: the list, and the page with its flags cleared. *)
Definition page_off_lru (p : page) : Z * page :=
  if PageUnevictable p then (LRU_UNEVICTABLE, __ClearPageUnevictable p)
  else
    let lru := page_lru_base_type p in
    if PageActive p then (lru + LRU_ACTIVE, __ClearPageActive p)
    else (lru, p).

Definition page_lru (p : page) : Z :=
  if PageUnevictable p then LRU_UNEVICTABLE
  else
    let lru := page_lru_base_type p in
    if PageActive p then lru + LRU_ACTIVE else lru.

End Lru.

End MmInline.

(** ** Further concrete rings *)

(** [example_ring] filled to the brim by 128 pushes of (0, 0). *)
Definition example_ring_full : kvm_dirty_ring :=
  {| dirty_index := 128; reset_index := 0; size := 128; soft_limit := 64;
     dirty_gfns := replicate 128 zero_gfn;
     indices := {| avail_index := 128; fetch_index := 0 |};
     index := 0 |}.

(** The same, userspace having harvested every entry and published
    [fetch_index = 128]. *)
Definition example_ring_full_harvested : kvm_dirty_ring :=
  user_write_fetch_index example_ring_full 128.

(** A ring whose entry count, 6, is not a power of two. *)
Definition example_ring_odd : kvm_dirty_ring :=
  {| dirty_index := 5; reset_index := 3; size := 6; soft_limit := 4;
     dirty_gfns := replicate 6 zero_gfn;
     indices := {| avail_index := 5; fetch_index := 3 |};
     index := 0 |}.

(** A ring of 65536 entries, all of them in use. *)
Definition example_ring_large : kvm_dirty_ring :=
  {| dirty_index := 65536; reset_index := 0; size := 65536;
     soft_limit := 65472;
     dirty_gfns := replicate (Z.to_nat 65536) zero_gfn;
     indices := {| avail_index := 65536; fetch_index := 0 |};
     index := 0 |}.

Definition example_vcpu0 : kvm_vcpu := {| vcpu_kvm := 1; vcpu_id := 0 |}.
Definition example_vcpu1 : kvm_vcpu := {| vcpu_kvm := 1; vcpu_id := 1 |}.

Definition example_kvm : kvm :=
  {| kvm_id := 1; vcpus := [example_vcpu0; example_vcpu1];
     dirty_ring_lock := false |}.

(** Three pushes onto the example ring, of which userspace has harvested
    the first two. *)
Definition example_ring_three : kvm_dirty_ring :=
  user_write_fetch_index
    (push_ring (kvm_dirty_ring_push (Some 0)
       (push_ring (kvm_dirty_ring_push (Some 0)
          (push_ring (kvm_dirty_ring_push (Some 0) example_ring 1 0))
          2 7))
       1 1))
    2.

(** A VM whose [vcpus[0]] is not there. *)
Definition example_kvm_no_vcpu0 : kvm :=
  {| kvm_id := 1; vcpus := []; dirty_ring_lock := false |}.

(** * Facts *)

(** ** Machine arithmetic *)

(** Goals about [mod] with literal moduli. *)
Ltac zmod := Z.div_mod_to_equations; lia.

(** Closed goals: evaluate, then compare constructors. *)
Ltac by_computation := vm_compute; repeat split; congruence.

Lemma u32_range x : is_u32 (u32 x).
Proof. unfold is_u32, u32. zmod. Qed.

Lemma u32_small x : is_u32 x -> u32 x = x.
Proof. unfold is_u32, u32. intros. apply Z.mod_small. lia. Qed.

Lemma u32_add_l x y : u32 (u32 x + y) = u32 (x + y).
Proof. unfold u32. apply Zplus_mod_idemp_l. Qed.

Lemma u32_sub_u32 x y : u32 (u32 x - u32 y) = u32 (x - y).
Proof. unfold u32. symmetry. apply Zminus_mod. Qed.

Lemma int_small x : - 2 ^ 31 <= x < 2 ^ 31 -> int x = x.
Proof. unfold int. intros. rewrite Z.mod_small; lia. Qed.

Lemma int_add_l a b : int (int a + b) = int (a + b).
Proof.
  unfold int. f_equal.
  replace ((a + 2 ^ 31) mod 2 ^ 32 - 2 ^ 31 + b + 2 ^ 31)
    with ((a + 2 ^ 31) mod 2 ^ 32 + b) by lia.
  rewrite Zplus_mod_idemp_l. f_equal. lia.
Qed.

(** A non-negative [int] read of a u32 distance is the distance. *)
Lemma int_of_u32_nonneg d : is_u32 d -> 0 <= int d -> int d = d.
Proof. unfold is_u32, int. intros. zmod. Qed.

Lemma u32_dist_zero f r : is_u32 f -> is_u32 r -> u32 (f - r) = 0 -> f = r.
Proof. unfold is_u32, u32. intros. zmod. Qed.

Lemma u32_dist_succ f r :
  is_u32 f -> is_u32 r -> u32 (f - r) <> 0 ->
  u32 (f - u32 (r + 1)) = u32 (f - r) - 1.
Proof. unfold is_u32, u32. intros. zmod. Qed.

Lemma u32_dist_add r d : is_u32 r -> is_u32 d -> u32 (u32 (r + d) - r) = d.
Proof. unfold is_u32, u32. intros. zmod. Qed.

Lemma u32_add_dist f r : is_u32 f -> is_u32 r -> u32 (r + u32 (f - r)) = f.
Proof. unfold is_u32, u32. intros. zmod. Qed.

(** ** The reset loop *)

Lemma walk_set_reset_index ring v start n :
  walk (set_reset_index ring v) start n = walk ring start n.
Proof. revert start. induction n as [|n IH]; intros; simpl; [|rewrite IH]; reflexivity. Qed.

(** The walk looks at the array and the entry count only. *)
Lemma walk_ext ring1 ring2 start n :
  dirty_gfns ring1 = dirty_gfns ring2 ->
  size ring1 = size ring2 ->
  walk ring1 start n = walk ring2 start n.
Proof.
  intros Hg Hs. revert start. induction n as [|n IH]; intros; simpl; [reflexivity|].
  rewrite IH. unfold gfn_at, ring_slot. rewrite Hg, Hs. reflexivity.
Qed.

Lemma walk_length ring start n : length (walk ring start n) = n.
Proof. revert start. induction n as [|n IH]; intros; simpl; [|rewrite IH]; reflexivity. Qed.

Lemma coalesce_count l s o : count (fst (coalesce l s o)) = int (count l + 1).
Proof.
  unfold coalesce.
  repeat match goal with |- context [if ?b then _ else _] => destruct b end;
    reflexivity.
Qed.

Lemma coalesce_all_count l es :
  count (fst (coalesce_all l es)) =
  match es with
  | [] => count l
  | _ => int (count l + Z.of_nat (length es))
  end.
Proof.
  revert l. induction es as [|e es IH]; intros l; [reflexivity|].
  simpl coalesce_all.
  pose proof (coalesce_count l (slot e) (offset e)) as Hc.
  destruct (coalesce l (slot e) (offset e)) as [l1 c1]. simpl in Hc.
  specialize (IH l1). destruct (coalesce_all l1 es) as [l2 c2].
  simpl in IH |- *. rewrite IH. destruct es as [|e' es].
  - rewrite Hc. reflexivity.
  - rewrite Hc, int_add_l. f_equal. simpl length. lia.
Qed.

Lemma reset_body_eq st :
  reset_body st =
  let ring := rs_ring st in
  let e := gfn_at ring (ring_slot ring (reset_index ring)) in
  let c := coalesce (rs_locals st) (slot e) (offset e) in
  {| rs_ring := set_reset_index ring (u32 (reset_index ring + 1));
     rs_locals := fst c;
     rs_calls := rs_calls st ++ snd c |}.
Proof. unfold reset_body. simpl. destruct (coalesce _ _ _); reflexivity. Qed.

(** Fuel beyond what the loop needs changes nothing. *)
Lemma reset_while_more_fuel fuel : forall fuel' fetch st st',
  reset_while fuel fetch st = Some st' ->
  (fuel <= fuel')%nat ->
  reset_while fuel' fetch st = Some st'.
Proof.
  induction fuel as [|fuel IH]; intros fuel' fetch st st' Hrun Hle.
  - simpl in Hrun.
    destruct (reset_index (rs_ring st) =? fetch) eqn:E; [|discriminate].
    destruct fuel'; simpl; rewrite E; assumption.
  - destruct fuel' as [|fuel']; [lia|].
    simpl in Hrun |- *.
    destruct (reset_index (rs_ring st) =? fetch); [assumption|].
    apply IH; [assumption | lia].
Qed.

(** The loop leaves by its own condition after as many iterations as the
    u32 distance from [reset_index] to [fetch], whatever fuel beyond that
    it is given; on the way it coalesces the entries of the walk, and the
    ring changes in [reset_index] only. *)
Lemma reset_while_walk (n : nat) :
  forall fuel fetch st,
    is_u32 fetch ->
    is_u32 (reset_index (rs_ring st)) ->
    u32 (fetch - reset_index (rs_ring st)) = Z.of_nat n ->
    (n <= fuel)%nat ->
    reset_while fuel fetch st =
    let c := coalesce_all (rs_locals st)
               (walk (rs_ring st) (reset_index (rs_ring st)) n) in
    Some {| rs_ring := set_reset_index (rs_ring st) fetch;
            rs_locals := fst c;
            rs_calls := rs_calls st ++ snd c |}.
Proof.
  induction n as [|n IH]; intros fuel fetch st Hf Hr Hd Hfuel.
  - apply u32_dist_zero in Hd; [|assumption..].
    destruct st as [ring l calls]. destruct ring. simpl in *. subst.
    destruct fuel; simpl; rewrite Z.eqb_refl, app_nil_r; reflexivity.
  - destruct fuel as [|fuel]; [lia|].
    assert (Hne : reset_index (rs_ring st) <> fetch).
    { intros E. rewrite E, Z.sub_diag in Hd. change (u32 0) with 0 in Hd. lia. }
    simpl reset_while. apply Z.eqb_neq in Hne. rewrite Hne.
    rewrite reset_body_eq. cbv zeta.
    rewrite IH; [| assumption | apply u32_range | | lia].
    + simpl. rewrite walk_set_reset_index.
      destruct (coalesce _ _ _) as [l1 c1]. simpl.
      destruct (coalesce_all _ _) as [l2 c2]. simpl.
      rewrite app_assoc. reflexivity.
    + simpl. rewrite u32_dist_succ; [lia | assumption.. |].
      rewrite Hd. lia.
Qed.

(** ** Coalescing, on small inputs *)

(** A change of slot flushes the batch and reseeds. *)
Example coalesce_slot_change :
  coalesce (seeded 1 0 1) 2 0 =
  ({| cur_slot := 2; cur_offset := 0; mask := 1; count := 2;
      first_round := false |},
   [ {| call_slot := 1; call_offset := 0; call_mask := 1 |} ]).
Proof. reflexivity. Qed.

(** Forward within the window: bit [delta] is set, nothing is called. *)
Example coalesce_forward :
  coalesce (seeded 1 10 1) 1 73 =
  ({| cur_slot := 1; cur_offset := 10; mask := 2 ^ 63 + 1; count := 2;
      first_round := false |}, []).
Proof. reflexivity. Qed.

(** Forward by BITS_PER_LONG: outside the window, flush. *)
Example coalesce_forward_far :
  snd (coalesce (seeded 1 10 1) 1 74) =
  [ {| call_slot := 1; call_offset := 10; call_mask := 1 |} ].
Proof. reflexivity. Qed.

(** Backward, but the shift would drop the top bit of the mask: flush. *)
Example coalesce_backward_overflow :
  snd (coalesce (seeded 1 10 (2 ^ 63 + 1)) 1 9) =
  [ {| call_slot := 1; call_offset := 10; call_mask := 2 ^ 63 + 1 |} ].
Proof. reflexivity. Qed.

(** Backward with room: the mask is shifted and bit 0 set. *)
Example coalesce_backward :
  coalesce (seeded 1 5 1) 1 3 =
  ({| cur_slot := 1; cur_offset := 3; mask := 5; count := 2;
      first_round := false |}, []).
Proof. reflexivity. Qed.

(** ** Reset as a whole *)

Lemma reset_invalid ring :
  size ring < u32 (fetch_index (indices ring) - reset_index ring) ->
  kvm_dirty_ring_reset ring =
  Some {| reset_ret := - EINVAL; reset_ring := ring; reset_calls := [] |}.
Proof.
  intros H. unfold kvm_dirty_ring_reset, fetch_out_of_range.
  apply Z.ltb_lt in H. rewrite H. reflexivity.
Qed.

Lemma reset_nothing ring :
  0 <= size ring ->
  fetch_index (indices ring) = reset_index ring ->
  kvm_dirty_ring_reset ring =
  Some {| reset_ret := 0; reset_ring := ring; reset_calls := [] |}.
Proof.
  intros Hs H. unfold kvm_dirty_ring_reset, fetch_out_of_range.
  rewrite H, Z.sub_diag. change (u32 0) with 0.
  destruct (Z.ltb_spec (size ring) 0); [lia|].
  rewrite Z.eqb_refl. reflexivity.
Qed.

(** A reset that passes the range check with something to consume: it
    returns the distance (as an int), moves [reset_index] to [fetch] and
    leaves every other field alone, and its calls are those of coalescing
    the walk, followed by the flush after the loop. *)
Lemma reset_walk ring :
  ring_wf ring ->
  0 < u32 (fetch_index (indices ring) - reset_index ring) <= size ring ->
  kvm_dirty_ring_reset ring =
  let fetch := fetch_index (indices ring) in
  let d := u32 (fetch - reset_index ring) in
  let c := coalesce_all reset_locals0
             (walk ring (reset_index ring) (Z.to_nat d)) in
  Some {| reset_ret := int d;
          reset_ring := set_reset_index ring fetch;
          reset_calls := snd c ++ [flush_call (fst c)] |}.
Proof.
  intros Hwf Hd. destruct Hwf. cbv zeta.
  unfold kvm_dirty_ring_reset, fetch_out_of_range.
  destruct (Z.ltb_spec (size ring)
              (u32 (fetch_index (indices ring) - reset_index ring))); [lia|].
  destruct (Z.eqb_spec (fetch_index (indices ring)) (reset_index ring)) as [E|_].
  { rewrite E, Z.sub_diag in Hd. change (u32 0) with 0 in Hd. lia. }
  rewrite (reset_while_walk
             (Z.to_nat (u32 (fetch_index (indices ring) - reset_index ring))));
    simpl; [| assumption | assumption | lia | lia].
  pose proof (coalesce_all_count reset_locals0
    (walk ring (reset_index ring)
       (Z.to_nat (u32 (fetch_index (indices ring) - reset_index ring))))) as Hc.
  destruct (coalesce_all _ _) as [l c]. simpl in *.
  rewrite Hc.
  destruct (walk _ _ _) eqn:Ew.
  - apply (f_equal (@length _)) in Ew. rewrite walk_length in Ew. simpl in Ew. lia.
  - rewrite <- Ew, walk_length, Z2Nat.id by lia. reflexivity.
Qed.

(** [kvm_dirty_ring_reset] always returns: the fuel it gives its loop is
    enough. *)
Lemma reset_total ring :
  ring_wf ring -> exists res, kvm_dirty_ring_reset ring = Some res.
Proof.
  intros Hwf.
  destruct (Z.lt_ge_cases (size ring)
              (u32 (fetch_index (indices ring) - reset_index ring))) as [H|H].
  - rewrite reset_invalid by assumption. eauto.
  - destruct (Z.eq_dec (u32 (fetch_index (indices ring) - reset_index ring)) 0)
      as [E|E].
    + destruct Hwf. apply u32_dist_zero in E; [|assumption..].
      rewrite reset_nothing; [eauto | unfold is_u32 in *; lia | assumption].
    + pose proof (u32_range (fetch_index (indices ring) - reset_index ring)).
      rewrite reset_walk; [eauto | assumption | unfold is_u32 in *; lia].
Qed.

(** ** Physical positions *)

Lemma pow2_bounds k : 0 <= k < 32 -> 0 < 2 ^ k <= 2 ^ 31.
Proof.
  intros Hk. split.
  - apply Z.pow_pos_nonneg; lia.
  - apply Z.pow_le_mono_r; lia.
Qed.

(** With a power-of-two entry count the mask is a remainder. *)
Lemma ring_slot_mod ring idx :
  ring_pow2 ring -> ring_slot ring idx = idx mod size ring.
Proof.
  intros (k & Hk & Hs). unfold ring_slot. rewrite Hs.
  pose proof (pow2_bounds k Hk).
  rewrite u32_small by (unfold is_u32; lia).
  replace (2 ^ k - 1) with (Z.ones k) by (rewrite Z.ones_equiv; lia).
  apply Z.land_ones. lia.
Qed.

Lemma ring_slot_in_range ring idx :
  ring_pow2 ring -> ring_backed ring ->
  (Z.to_nat (ring_slot ring idx) < length (dirty_gfns ring))%nat.
Proof.
  intros Hp Hb. rewrite ring_slot_mod by assumption.
  destruct Hp as (k & Hk & Hs). pose proof (pow2_bounds k Hk).
  unfold ring_backed in Hb.
  pose proof (Z.mod_pos_bound idx (size ring)). lia.
Qed.

(** ** C2: the range check of reset *)

(** C2.  When the u32 distance from [reset_index] to the published
    [fetch_index] exceeds [size], reset returns -EINVAL, calls
    [kvm_reset_dirty_gfn] not once and leaves the whole ring as it was;
    when the distance is within [size], reset returns, and what it returns
    is not -EINVAL.  The ring's fields hold u32 values, and the entry
    count is below 2^32 - EINVAL, so that the int count of consumed
    entries cannot wrap onto the error code. *)
Theorem reset_range_check ring :
  ring_wf ring ->
  size ring < 2 ^ 32 - EINVAL ->
  (size ring < u32 (fetch_index (indices ring) - reset_index ring) ->
   kvm_dirty_ring_reset ring =
   Some {| reset_ret := - EINVAL; reset_ring := ring; reset_calls := [] |}) /\
  (u32 (fetch_index (indices ring) - reset_index ring) <= size ring ->
   exists res, kvm_dirty_ring_reset ring = Some res /\
               reset_ret res <> - EINVAL).
Proof.
  intros Hwf Hsz. split; [apply reset_invalid|].
  intros Hd.
  destruct (Z.eq_dec (u32 (fetch_index (indices ring) - reset_index ring)) 0)
    as [E|E].
  - destruct Hwf. apply u32_dist_zero in E; [|assumption..].
    rewrite reset_nothing; [| unfold is_u32 in *; lia | assumption].
    eexists; split; [reflexivity|]. simpl. unfold EINVAL. lia.
  - pose proof (u32_range (fetch_index (indices ring) - reset_index ring)) as Hr.
    rewrite reset_walk; [| assumption | unfold is_u32 in *; lia].
    eexists; split; [reflexivity|]. simpl.
    unfold int, EINVAL, is_u32 in *. zmod.
Qed.

(** ** C9: reset at a fixed watermark *)

(** C9.  If the published [fetch_index] equals [reset_index], reset
    returns 0, makes no call and changes nothing; hence after a reset that
    did not fail with -EINVAL, a second reset with [fetch_index] untouched
    returns 0, makes no call and changes nothing. *)
Theorem reset_idempotent ring :
  ring_wf ring ->
  (fetch_index (indices ring) = reset_index ring ->
   kvm_dirty_ring_reset ring =
   Some {| reset_ret := 0; reset_ring := ring; reset_calls := [] |}) /\
  (forall res,
     kvm_dirty_ring_reset ring = Some res ->
     reset_ret res <> - EINVAL ->
     fetch_index (indices (reset_ring res)) = fetch_index (indices ring) /\
     kvm_dirty_ring_reset (reset_ring res) =
     Some {| reset_ret := 0; reset_ring := reset_ring res; reset_calls := [] |}).
Proof.
  intros Hwf.
  assert (Hs : 0 <= size ring) by (destruct Hwf; unfold is_u32 in *; lia).
  split; [apply reset_nothing; assumption|].
  intros res Hres Hret.
  destruct (Z.lt_ge_cases (size ring)
              (u32 (fetch_index (indices ring) - reset_index ring))) as [H|H].
  { rewrite reset_invalid in Hres by assumption.
    injection Hres as <-. simpl in Hret. congruence. }
  destruct (Z.eq_dec (u32 (fetch_index (indices ring) - reset_index ring)) 0)
    as [E|E].
  - destruct Hwf. apply u32_dist_zero in E; [|assumption..].
    rewrite reset_nothing in Hres by assumption.
    injection Hres as <-. simpl. split; [reflexivity|].
    apply reset_nothing; assumption.
  - pose proof (u32_range (fetch_index (indices ring) - reset_index ring)) as Hr.
    rewrite reset_walk in Hres; [| assumption | unfold is_u32 in *; lia].
    injection Hres as <-. simpl. split; [reflexivity|].
    apply reset_nothing; [assumption | reflexivity].
Qed.

(** ** C7: a reset of one entry *)

(** C7, where the code departs from it.  A reset whose batch is exactly
    one entry (the u32 distance from [reset_index] to [fetch_index] is 1)
    returns 1 and calls [kvm_reset_dirty_gfn] twice, not once: after the
    loop on the entry itself with mask 1, and before that, in the first
    round of the loop, on the accumulator in which nothing has been put
    yet (slot 0, offset 0, mask 0).  The source sets these locals to zero
    "only ... to make compilers happy", and the older revision
    ([PerVcpu.kvm_dirty_ring_reset]) seeds them from the first entry
    without a call: the first-round call is a defect of the current
    revision. *)
Theorem reset_single_entry ring :
  ring_wf ring ->
  1 <= size ring ->
  u32 (fetch_index (indices ring) - reset_index ring) = 1 ->
  exists res,
    kvm_dirty_ring_reset ring = Some res /\
    reset_ret res = 1 /\
    reset_calls res =
    [ {| call_slot := 0; call_offset := 0; call_mask := 0 |};
      {| call_slot := slot (gfn_at ring (ring_slot ring (reset_index ring)));
         call_offset := offset (gfn_at ring (ring_slot ring (reset_index ring)));
         call_mask := 1 |} ].
Proof.
  intros Hwf Hs Hd.
  rewrite reset_walk; [| assumption | lia].
  cbv zeta. rewrite Hd. eexists; split; [reflexivity|].
  split; reflexivity.
Qed.

(** ** C10: the u32 differences are wrap-around safe *)

(** C10.  Let [pushed] and [consumed] be unbounded counts with
    [consumed <= pushed <= consumed + size], of which the ring holds the
    low 32 bits.  Then [kvm_dirty_ring_used] is [pushed - consumed], and
    the range check of reset lets through exactly the u32 values [fetch]
    that are the low 32 bits of some count in
    [consumed, consumed + size]. *)
Theorem used_and_range_check_wrap_safe ring pushed consumed :
  is_u32 (size ring) ->
  dirty_index ring = u32 pushed ->
  reset_index ring = u32 consumed ->
  consumed <= pushed <= consumed + size ring ->
  kvm_dirty_ring_used ring = pushed - consumed /\
  (forall fetch, is_u32 fetch ->
     (fetch_out_of_range ring fetch = false <->
      exists fetched,
        consumed <= fetched <= consumed + size ring /\ u32 fetched = fetch)).
Proof.
  intros Hs Hd Hr Hle. split.
  - unfold kvm_dirty_ring_used. rewrite Hd, Hr, u32_sub_u32.
    apply u32_small. unfold is_u32 in *. lia.
  - intros fetch Hf. unfold fetch_out_of_range. rewrite Z.ltb_ge, Hr. split.
    + intros H. exists (consumed + u32 (fetch - u32 consumed)). split.
      * pose proof (u32_range (fetch - u32 consumed)). unfold is_u32 in *. lia.
      * rewrite <- u32_add_l. apply u32_add_dist; [assumption | apply u32_range].
    + intros (fetched & Hin & <-). rewrite u32_sub_u32.
      rewrite u32_small; unfold is_u32 in *; lia.
Qed.

(** ** C4: when push is refused *)

(** C4, as the code has it.  Push returns -EBUSY exactly when there is no
    running vCPU and the used count has reached [soft_limit], and then
    leaves the ring alone.  In every other case it returns 0: with a
    running vCPU it returns 0 whatever the used count, the warning firing
    exactly when the ring was already full.  The value returned by a push
    that succeeded is 0 whether or not the ring is soft-full. *)
Theorem push_busy_iff running_vcpu ring s o :
  let res := kvm_dirty_ring_push running_vcpu ring s o in
  (push_ret res = - EBUSY <->
   running_vcpu = None /\ soft_limit ring <= kvm_dirty_ring_used ring) /\
  (push_ret res = - EBUSY -> push_ring res = ring) /\
  (push_ret res <> - EBUSY -> push_ret res = 0) /\
  (running_vcpu <> None ->
   push_ret res = 0 /\ push_warned res = kvm_dirty_ring_full ring).
Proof.
  cbv zeta. unfold kvm_dirty_ring_push, kvm_dirty_ring_soft_full.
  destruct running_vcpu as [v|]; simpl.
  - unfold EBUSY. intuition (try lia; try congruence).
  - destruct (Z.leb_spec (soft_limit ring) (kvm_dirty_ring_used ring)); simpl;
      unfold EBUSY; intuition (try lia; try congruence).
Qed.

(** ** C8: what a successful push writes *)

Lemma push_ok_ring running_vcpu ring s o :
  push_ret (kvm_dirty_ring_push running_vcpu ring s o) = 0 ->
  push_ring (kvm_dirty_ring_push running_vcpu ring s o) =
  write_avail_index
    (set_dirty_index
       (store_gfn ring (ring_slot ring (dirty_index ring)) s o)
       (u32 (dirty_index ring + 1)))
    (u32 (dirty_index ring + 1)).
Proof.
  unfold kvm_dirty_ring_push.
  destruct (is_null running_vcpu && kvm_dirty_ring_soft_full ring); simpl.
  - unfold EBUSY. lia.
  - reflexivity.
Qed.

(** C8.  A push that returns 0 stores [(slot, offset)] in the entry at
    position [dirty_index mod size] and in no other, advances
    [dirty_index] by one (in u32), publishes the new [dirty_index] as
    [avail_index], and leaves [reset_index], [size], [soft_limit] (and
    [fetch_index] and [index]) as they were.  The ring has a power-of-two
    entry count and an array of that many entries. *)
Theorem push_writes_entry running_vcpu ring s o :
  ring_pow2 ring ->
  ring_backed ring ->
  push_ret (kvm_dirty_ring_push running_vcpu ring s o) = 0 ->
  let ring' := push_ring (kvm_dirty_ring_push running_vcpu ring s o) in
  let pos := Z.to_nat (dirty_index ring mod size ring) in
  dirty_gfns ring' !! pos = Some {| slot := s; offset := o |} /\
  dirty_gfns ring' = <[pos := {| slot := s; offset := o |}]> (dirty_gfns ring) /\
  dirty_index ring' = u32 (dirty_index ring + 1) /\
  avail_index (indices ring') = dirty_index ring' /\
  reset_index ring' = reset_index ring /\
  size ring' = size ring /\
  soft_limit ring' = soft_limit ring /\
  fetch_index (indices ring') = fetch_index (indices ring) /\
  index ring' = index ring.
Proof.
  intros Hp Hb Hret. cbv zeta. rewrite push_ok_ring by assumption.
  pose proof (ring_slot_in_range ring (dirty_index ring) Hp Hb) as Hlt.
  rewrite ring_slot_mod in Hlt by assumption.
  simpl. rewrite ring_slot_mod by assumption.
  split; [|repeat split].
  apply list_lookup_insert_eq. assumption.
Qed.

(** The older per-vCPU push publishes the new [dirty_index] reduced
    modulo [size] instead. *)
Lemma pervcpu_push_avail_index ring s o :
  fst (PerVcpu.kvm_dirty_ring_push ring s o) <> - EBUSY ->
  let ring' := snd (PerVcpu.kvm_dirty_ring_push ring s o) in
  dirty_index ring' = u32 (dirty_index ring + 1) /\
  avail_index (indices ring') = dirty_index ring' mod size ring.
Proof.
  unfold PerVcpu.kvm_dirty_ring_push.
  destruct (size ring <=? _); simpl; [congruence|].
  intros _. split; reflexivity.
Qed.

(** ** What push and reset keep *)

Lemma push_wf running_vcpu ring s o :
  ring_wf ring -> ring_wf (push_ring (kvm_dirty_ring_push running_vcpu ring s o)).
Proof.
  intros Hwf. unfold kvm_dirty_ring_push.
  destruct (is_null running_vcpu && kvm_dirty_ring_soft_full ring); simpl;
    [assumption|].
  destruct Hwf. constructor; simpl; try assumption; apply u32_range.
Qed.

Lemma user_write_fetch_index_wf ring f :
  ring_wf ring -> is_u32 f -> ring_wf (user_write_fetch_index ring f).
Proof. intros [] Hf. constructor; simpl; assumption. Qed.

Lemma set_reset_index_wf ring v :
  ring_wf ring -> is_u32 v -> ring_wf (set_reset_index ring v).
Proof. intros [] Hf. constructor; simpl; assumption. Qed.

Lemma set_reset_index_same ring : set_reset_index ring (reset_index ring) = ring.
Proof. destruct ring; reflexivity. Qed.

(** The three ways out of reset, in one statement. *)
Lemma reset_cases ring res :
  ring_wf ring ->
  kvm_dirty_ring_reset ring = Some res ->
  let d := u32 (fetch_index (indices ring) - reset_index ring) in
  (size ring < d /\ reset_ret res = - EINVAL /\ reset_ring res = ring /\
   reset_calls res = []) \/
  (d <= size ring /\ reset_ret res = int d /\
   reset_ring res = set_reset_index ring (fetch_index (indices ring)) /\
   (d = 0 -> reset_calls res = [])).
Proof.
  intros Hwf Hres. cbv zeta.
  destruct (Z.lt_ge_cases (size ring)
              (u32 (fetch_index (indices ring) - reset_index ring))) as [H|H].
  { rewrite reset_invalid in Hres by assumption. injection Hres as <-.
    left. repeat split; assumption. }
  right. split; [assumption|].
  destruct (Z.eq_dec (u32 (fetch_index (indices ring) - reset_index ring)) 0)
    as [E|E].
  - rewrite E. pose proof Hwf as [].
    apply u32_dist_zero in E; [|assumption..].
    rewrite reset_nothing in Hres; [| unfold is_u32 in *; lia | assumption].
    injection Hres as <-. simpl. rewrite E, set_reset_index_same.
    repeat split; auto.
  - pose proof (u32_range (fetch_index (indices ring) - reset_index ring)).
    rewrite reset_walk in Hres; [| assumption | unfold is_u32 in *; lia].
    injection Hres as <-. simpl. repeat split. intros; contradiction.
Qed.

(** ** Sequences of pushes *)

Lemma push_seq_cons ring q reqs ring' :
  push_seq ring (q :: reqs) = Some ring' ->
  push_ret (kvm_dirty_ring_push (req_vcpu q) ring (req_slot q) (req_offset q)) = 0 /\
  push_seq
    (push_ring (kvm_dirty_ring_push (req_vcpu q) ring (req_slot q) (req_offset q)))
    reqs = Some ring'.
Proof.
  simpl. destruct (Z.eqb_spec
    (push_ret (kvm_dirty_ring_push (req_vcpu q) ring (req_slot q) (req_offset q))) 0);
    [auto | discriminate].
Qed.

(** Pushing advances [dirty_index] by the number of pushes and touches
    neither the other counters nor the length of the array. *)
Lemma push_seq_fields reqs : forall ring ring',
  push_seq ring reqs = Some ring' ->
  ring_wf ring ->
  ring_wf ring' /\
  dirty_index ring' = u32 (dirty_index ring + Z.of_nat (length reqs)) /\
  reset_index ring' = reset_index ring /\
  size ring' = size ring /\
  soft_limit ring' = soft_limit ring /\
  length (dirty_gfns ring') = length (dirty_gfns ring).
Proof.
  induction reqs as [|q reqs IH]; intros ring ring' Hseq Hwf.
  - injection Hseq as <-. rewrite Z.add_0_r, u32_small by apply Hwf.
    split; [assumption | repeat split].
  - apply push_seq_cons in Hseq as [Hret Hseq].
    apply IH in Hseq; [|apply push_wf; assumption].
    rewrite push_ok_ring in Hseq by assumption. simpl in Hseq.
    destruct Hseq as (Hwf' & Hd & Hr & Hs & Hl & Hlen).
    rewrite length_insert in Hlen.
    split; [assumption|]. repeat split; try assumption.
    rewrite Hd, u32_add_l. f_equal. simpl length. lia.
Qed.

(** ** Harvesting everything *)

(** Resetting with [fetch_index = dirty_index] on a ring whose used count
    is within [size] (and within int): the used count is returned,
    [reset_index] catches up with [dirty_index], and the calls are those
    of coalescing the walk over the used entries. *)
Lemma harvest_all_spec ring :
  ring_wf ring ->
  kvm_dirty_ring_used ring <= size ring ->
  kvm_dirty_ring_used ring <= INT_MAX ->
  exists res,
    harvest_all ring = Some res /\
    reset_ret res = kvm_dirty_ring_used ring /\
    reset_index (reset_ring res) = dirty_index ring /\
    dirty_index (reset_ring res) = dirty_index ring /\
    (0 < kvm_dirty_ring_used ring ->
     reset_calls res =
     let c := coalesce_all reset_locals0
                (walk ring (reset_index ring)
                   (Z.to_nat (kvm_dirty_ring_used ring))) in
     snd c ++ [flush_call (fst c)]).
Proof.
  intros Hwf Hsz Hint. unfold harvest_all, kvm_dirty_ring_used in *.
  assert (Hwf1 : ring_wf (user_write_fetch_index ring (dirty_index ring)))
    by (apply user_write_fetch_index_wf; [assumption | apply Hwf]).
  pose proof (u32_range (dirty_index ring - reset_index ring)) as Hr.
  destruct (Z.eq_dec (u32 (dirty_index ring - reset_index ring)) 0) as [E|E].
  - rewrite E. pose proof Hwf as [].
    apply u32_dist_zero in E; [|assumption..].
    rewrite reset_nothing;
      [| unfold is_u32 in *; simpl; lia | simpl; assumption].
    eexists; split; [reflexivity|]. simpl. repeat split; auto. lia.
  - rewrite reset_walk; [| assumption | simpl; unfold is_u32 in *; lia].
    eexists; split; [reflexivity|]. simpl.
    split; [apply int_small; unfold INT_MAX, is_u32 in *; lia|].
    repeat split. intros _.
    rewrite (walk_ext (user_write_fetch_index ring (dirty_index ring)) ring);
      reflexivity.
Qed.

(** ** The counters along a run *)

Lemma counters_ok_used ring pushed consumed :
  is_u32 (size ring) ->
  counters_ok ring pushed consumed ->
  kvm_dirty_ring_used ring = pushed - consumed.
Proof.
  intros Hs (Hd & Hr & Hle). unfold kvm_dirty_ring_used.
  rewrite Hd, Hr, u32_sub_u32. apply u32_small. unfold is_u32 in *. lia.
Qed.

(** One guarded event keeps the invariant: a push adds one to
    [dirty_index] and stays within [reset_index + size], a reset adds the
    count it returns to [reset_index] and stays within [dirty_index]. *)
Lemma ring_step_guarded ring op ring' p c pushed consumed :
  ring_wf ring ->
  counters_ok ring pushed consumed ->
  ring_step true ring op = Some (ring', p, c) ->
  ring_wf ring' /\ size ring' = size ring /\
  counters_ok ring' (pushed + p) (consumed + c).
Proof.
  intros Hwf Hok Hstep.
  pose proof (counters_ok_used ring pushed consumed (wf_size _ Hwf) Hok) as Hused.
  destruct Hok as (Hd & Hr & Hle).
  destruct op as [v s o | f | ]; simpl in Hstep.
  - destruct (Z.eqb_spec (push_ret (kvm_dirty_ring_push v ring s o)) 0)
      as [Hret|]; [|discriminate].
    unfold kvm_dirty_ring_full in Hstep.
    destruct (Z.leb_spec (size ring) (kvm_dirty_ring_used ring));
      [discriminate|].
    simpl in Hstep. injection Hstep as <- <- <-.
    split; [apply push_wf; assumption|].
    rewrite push_ok_ring by assumption. simpl.
    split; [reflexivity|]. unfold counters_ok. simpl.
    rewrite Hd, u32_add_l, Z.add_0_r. repeat split; try assumption; lia.
  - destruct ((0 <=? f) && (f <? 2 ^ 32)) eqn:Hf; [|discriminate].
    injection Hstep as <- <- <-.
    apply andb_true_iff in Hf as [Hf1%Z.leb_le Hf2%Z.ltb_lt].
    split; [apply user_write_fetch_index_wf; [assumption | split; assumption]|].
    split; [reflexivity|]. rewrite !Z.add_0_r.
    unfold counters_ok. simpl. repeat split; (assumption || lia).
  - destruct (kvm_dirty_ring_reset ring) as [res|] eqn:Hres; [|discriminate].
    destruct (Z.leb_spec 0 (reset_ret res)) as [Hret|]; [|discriminate].
    destruct (Z.leb_spec
                (u32 (fetch_index (indices ring) - reset_index ring))
                (kvm_dirty_ring_used ring)) as [Hg|]; [|discriminate].
    simpl in Hstep. injection Hstep as <- <- <-.
    pose proof (u32_range (fetch_index (indices ring) - reset_index ring)) as Hdr.
    destruct (reset_cases ring res Hwf Hres)
      as [(_ & Hinv & _) | (_ & Hcount & Hring & _)].
    { rewrite Hinv in Hret. unfold EINVAL in Hret. lia. }
    rewrite Hcount in Hret |- *.
    rewrite (int_of_u32_nonneg _ Hdr Hret). rewrite Hring.
    split; [apply set_reset_index_wf; [assumption | apply Hwf]|].
    split; [reflexivity|]. unfold counters_ok. simpl.
    rewrite Z.add_0_r. split; [assumption|].
    split; [|unfold is_u32 in *; lia].
    rewrite <- (u32_add_dist (fetch_index (indices ring)) (reset_index ring))
      at 1 by apply Hwf.
    rewrite Hr, u32_add_l. reflexivity.
Qed.

(** ** Freshly allocated rings *)

Section AllocFacts.

Variable sizeof_kvm_dirty_gfn : Z.
Variable KVM_DIRTY_RING_RSVD_ENTRIES : Z.
Variable kvm_cpu_dirty_log_size : Z.

(** The structure holds a u32 and a u64. *)
Hypothesis sizeof_kvm_dirty_gfn_ge : 12 <= sizeof_kvm_dirty_gfn.

Local Abbreviation alloc :=
  (kvm_dirty_ring_alloc sizeof_kvm_dirty_gfn KVM_DIRTY_RING_RSVD_ENTRIES
     kvm_cpu_dirty_log_size).
Local Abbreviation rsvd_entries :=
  (kvm_dirty_ring_get_rsvd_entries KVM_DIRTY_RING_RSVD_ENTRIES
     kvm_cpu_dirty_log_size).

Lemma alloc_entries_range bytes :
  is_u32 bytes -> 0 <= bytes / sizeof_kvm_dirty_gfn <= INT_MAX.
Proof.
  unfold is_u32, INT_MAX. intros Hb.
  split.
  - apply Z.div_pos; lia.
  - apply Z.div_le_upper_bound; lia.
Qed.

Lemma alloc_fresh pre ind idx bytes :
  is_u32 bytes ->
  is_u32 (avail_index ind) ->
  is_u32 (fetch_index ind) ->
  fst (alloc true pre ind idx bytes) = 0 /\
  ring_wf (snd (alloc true pre ind idx bytes)) /\
  ring_backed (snd (alloc true pre ind idx bytes)) /\
  dirty_index (snd (alloc true pre ind idx bytes)) = 0 /\
  reset_index (snd (alloc true pre ind idx bytes)) = 0 /\
  size (snd (alloc true pre ind idx bytes)) = bytes / sizeof_kvm_dirty_gfn /\
  soft_limit (snd (alloc true pre ind idx bytes)) =
    u32 (bytes / sizeof_kvm_dirty_gfn - rsvd_entries).
Proof.
  intros Hb Ha Hf. pose proof (alloc_entries_range bytes Hb) as He.
  unfold kvm_dirty_ring_alloc. simpl.
  rewrite (u32_small (bytes / sizeof_kvm_dirty_gfn))
    by (unfold is_u32, INT_MAX in *; lia).
  split; [reflexivity|]. split; [|split; [|repeat split]].
  - constructor; simpl; try assumption; try apply u32_range;
      unfold is_u32, INT_MAX in *; lia.
  - unfold ring_backed. simpl. rewrite length_replicate. lia.
Qed.

(** C3.  Take a ring as [kvm_dirty_ring_alloc] leaves it, with no more
    reserved entries than entries, so that [soft_limit] is
    [size - reserved] and not a wrapped difference.  After [n] pushes
    that all returned 0, with [n <= soft_limit], a reset with
    [fetch_index = dirty_index] returns [n] and leaves
    [reset_index = dirty_index]. *)
Theorem push_then_harvest pre ind idx bytes reqs ring :
  is_u32 bytes ->
  is_u32 (avail_index ind) ->
  is_u32 (fetch_index ind) ->
  rsvd_entries <= bytes / sizeof_kvm_dirty_gfn ->
  push_seq (snd (alloc true pre ind idx bytes)) reqs = Some ring ->
  Z.of_nat (length reqs) <= soft_limit (snd (alloc true pre ind idx bytes)) ->
  exists res,
    harvest_all ring = Some res /\
    reset_ret res = Z.of_nat (length reqs) /\
    reset_index (reset_ring res) = dirty_index (reset_ring res).
Proof.
  intros Hb Ha Hf Hrsvd Hseq Hn.
  destruct (alloc_fresh pre ind idx bytes Hb Ha Hf)
    as (_ & Hwf0 & _ & Hd0 & Hr0 & Hs0 & Hl0).
  pose proof (alloc_entries_range bytes Hb) as He.
  destruct (push_seq_fields _ _ _ Hseq Hwf0) as (Hwf & Hd & Hr & Hs & _).
  rewrite Hl0 in Hn. rewrite Hd0 in Hd. rewrite Hr0 in Hr. rewrite Hs0 in Hs.
  pose proof (u32_range (KVM_DIRTY_RING_RSVD_ENTRIES + kvm_cpu_dirty_log_size))
    as Hrs.
  fold rsvd_entries in Hrs.
  rewrite u32_small in Hn by (unfold is_u32, INT_MAX in *; lia).
  assert (Hused : kvm_dirty_ring_used ring = Z.of_nat (length reqs)).
  { unfold kvm_dirty_ring_used. rewrite Hd, Hr, Z.add_0_l, Z.sub_0_r.
    assert (Hn32 : is_u32 (Z.of_nat (length reqs)))
      by (unfold is_u32, INT_MAX in *; lia).
    rewrite !(u32_small _ Hn32). reflexivity. }
  destruct (harvest_all_spec ring Hwf) as (res & Hres & Hret & Hri & Hdi & _).
  { rewrite Hused, Hs. unfold is_u32 in *. lia. }
  { rewrite Hused. unfold is_u32, INT_MAX in *. lia. }
  exists res. rewrite Hret, Hused, Hri, Hdi. auto.
Qed.

(** C1, as the code keeps it.  Start from a ring as
    [kvm_dirty_ring_alloc] leaves it and let pushes that return 0,
    userspace stores to [fetch_index] and resets that return a count
    interleave in any order, each push finding the ring not full and each
    reset finding [fetch_index] no further from [reset_index] than
    [dirty_index].  Then [dirty_index] and [reset_index] are the low 32
    bits of the number of entries pushed and of the number consumed, and
    [consumed <= pushed <= consumed + size]; the used count is their
    difference, and [size] stays what the allocation made it. *)
Theorem ring_counters_invariant pre ind idx bytes ring pushed consumed :
  is_u32 bytes ->
  is_u32 (avail_index ind) ->
  is_u32 (fetch_index ind) ->
  ring_run true (snd (alloc true pre ind idx bytes)) ring pushed consumed ->
  counters_ok ring pushed consumed /\
  kvm_dirty_ring_used ring = pushed - consumed /\
  size ring = bytes / sizeof_kvm_dirty_gfn.
Proof.
  intros Hb Ha Hf Hrun.
  destruct (alloc_fresh pre ind idx bytes Hb Ha Hf)
    as (_ & Hwf0 & _ & Hd0 & Hr0 & Hs0 & _).
  pose proof (alloc_entries_range bytes Hb) as He.
  enough (ring_wf ring /\ size ring = bytes / sizeof_kvm_dirty_gfn /\
          counters_ok ring pushed consumed) as (Hwf & Hs & Hok).
  { split; [assumption|]. split; [|assumption].
    apply counters_ok_used; [apply Hwf | assumption]. }
  induction Hrun as [|ring op ring' pushed consumed p c Hrun IH Hstep].
  - split; [assumption|]. split; [assumption|].
    unfold counters_ok. rewrite Hd0, Hr0, Hs0. repeat split; lia.
  - destruct IH as (Hwf & Hs & Hok).
    destruct (ring_step_guarded _ _ _ _ _ _ _ Hwf Hok Hstep) as (? & Hs' & ?).
    rewrite Hs' . auto.
Qed.

End AllocFacts.

(** ** Entries are read back in the order pushed *)

Lemma u32_mod_size ring x :
  ring_pow2 ring -> u32 x mod size ring = x mod size ring.
Proof.
  intros (k & Hk & ->). unfold u32.
  apply Z.mod_mod_divide.
  exists (2 ^ (32 - k)). rewrite <- Z.pow_add_r by lia. f_equal. lia.
Qed.

Lemma slot_shift_ne ring d j :
  0 < size ring -> 0 < j < size ring ->
  (d + j) mod size ring <> d mod size ring.
Proof.
  intros Hs Hj E.
  assert (Hm : (d + j - d) mod size ring = 0).
  { rewrite Zminus_mod, E, Z.sub_diag. apply Z.mod_0_l. lia. }
  replace (d + j - d) with j in Hm by lia.
  rewrite Z.mod_small in Hm; lia.
Qed.

Lemma ring_pow2_size ring ring' :
  size ring' = size ring -> ring_pow2 ring -> ring_pow2 ring'.
Proof. intros E (k & Hk & Hs). exists k. rewrite E. auto. Qed.

(** Pushes write only at the positions of the counter values they go
    through. *)
Lemma push_seq_frame reqs : forall ring ring' (p : nat),
  push_seq ring reqs = Some ring' ->
  ring_pow2 ring ->
  (forall j, 0 <= j < Z.of_nat (length reqs) ->
             Z.to_nat ((dirty_index ring + j) mod size ring) <> p) ->
  dirty_gfns ring' !! p = dirty_gfns ring !! p.
Proof.
  induction reqs as [|q reqs IH]; intros ring ring' p Hseq Hp Hfree.
  - injection Hseq as <-. reflexivity.
  - apply push_seq_cons in Hseq as [Hret Hseq].
    rewrite push_ok_ring in Hseq by assumption.
    rewrite (IH _ _ p Hseq); simpl.
    + rewrite ring_slot_mod by assumption.
      apply list_lookup_insert_ne.
      specialize (Hfree 0). rewrite Z.add_0_r in Hfree.
      apply Hfree. simpl length. lia.
    + eapply ring_pow2_size; [|exact Hp]. reflexivity.
    + intros j Hj.
      rewrite Zplus_mod, (u32_mod_size ring) by assumption.
      rewrite <- Zplus_mod.
      replace (dirty_index ring + 1 + j) with (dirty_index ring + (j + 1)) by lia.
      apply Hfree. simpl length. lia.
Qed.

Lemma push_seq_walk reqs : forall ring ring',
  push_seq ring reqs = Some ring' ->
  ring_wf ring -> ring_pow2 ring -> ring_backed ring ->
  Z.of_nat (length reqs) <= size ring ->
  walk ring' (dirty_index ring) (length reqs) = map gfn_of_req reqs.
Proof.
  induction reqs as [|q reqs IH]; intros ring ring' Hseq Hwf Hp Hb Hlen;
    [reflexivity|].
  pose proof (push_seq_fields _ _ _ Hseq Hwf) as (_ & _ & _ & Hs' & _).
  pose proof (ring_slot_in_range ring (dirty_index ring) Hp Hb) as Hin.
  pose proof Hp as (k & Hk & Hsz). pose proof (pow2_bounds k Hk) as Hk2.
  apply push_seq_cons in Hseq as [Hret Hseq].
  pose proof (push_wf (req_vcpu q) ring (req_slot q) (req_offset q) Hwf) as Hwf1.
  rewrite push_ok_ring in Hseq, Hwf1 by assumption.
  simpl length in *. simpl walk. simpl map. f_equal.
  - unfold gfn_at, ring_slot. rewrite Hs'. fold (ring_slot ring (dirty_index ring)).
    rewrite (push_seq_frame _ _ _ _ Hseq); simpl.
    + rewrite list_lookup_insert_eq by assumption. reflexivity.
    + eapply ring_pow2_size; [|exact Hp]. reflexivity.
    + intros j Hj. rewrite ring_slot_mod by assumption.
      rewrite Zplus_mod, (u32_mod_size ring) by assumption.
      rewrite <- Zplus_mod.
      replace (dirty_index ring + 1 + j) with (dirty_index ring + (j + 1)) by lia.
      pose proof (slot_shift_ne ring (dirty_index ring) (j + 1)) as Hne.
      pose proof (Z.mod_pos_bound (dirty_index ring + (j + 1)) (size ring)).
      pose proof (Z.mod_pos_bound (dirty_index ring) (size ring)).
      lia.
  - apply (IH _ _ Hseq); simpl.
    + assumption.
    + eapply ring_pow2_size; [|exact Hp]. reflexivity.
    + unfold ring_backed in *. simpl. rewrite length_insert. assumption.
    + lia.
Qed.

(** ** C5 and C6: two coalescing runs *)

(** What harvesting yields after a sequence of pushes into an empty ring
    with room for them. *)
Lemma push_seq_harvest ring reqs ring' :
  push_seq ring reqs = Some ring' ->
  ring_wf ring -> ring_pow2 ring -> ring_backed ring ->
  dirty_index ring = reset_index ring ->
  (0 < length reqs)%nat ->
  Z.of_nat (length reqs) <= size ring ->
  Z.of_nat (length reqs) <= INT_MAX ->
  exists res,
    harvest_all ring' = Some res /\
    reset_ret res = Z.of_nat (length reqs) /\
    reset_calls res =
    let c := coalesce_all reset_locals0 (map gfn_of_req reqs) in
    snd c ++ [flush_call (fst c)].
Proof.
  intros Hseq Hwf Hp Hb Hempty Hpos Hlen Hint.
  destruct (push_seq_fields _ _ _ Hseq Hwf) as (Hwf' & Hd & Hr & Hs & _).
  pose proof Hp as (k & Hk & Hsz). pose proof (pow2_bounds k Hk) as Hk2.
  assert (Hused : kvm_dirty_ring_used ring' = Z.of_nat (length reqs)).
  { unfold kvm_dirty_ring_used. rewrite Hd, Hr, <- Hempty.
    apply u32_dist_add; [apply Hwf | unfold is_u32; lia]. }
  destruct (harvest_all_spec ring' Hwf') as (res & Hres & Hret & _ & _ & Hcalls).
  { rewrite Hused, Hs. assumption. }
  { rewrite Hused. assumption. }
  exists res. split; [assumption|]. split; [congruence|].
  rewrite Hcalls by lia.
  rewrite Hused, Nat2Z.id, Hr, <- Hempty.
  rewrite (push_seq_walk _ _ _ Hseq) by assumption. reflexivity.
Qed.

(** C5, where the code departs from it.  Into an empty ring of at least
    three entries push (1,0), (1,1), (1,2), each push returning 0, and
    reset with [fetch_index = dirty_index]: 3 is returned and
    [kvm_reset_dirty_gfn] is called twice, not once: after the loop with
    (slot 1, offset 0, mask 0b111), and before that, in the first round of
    the loop, with (slot 0, offset 0, mask 0), the accumulator in which
    nothing has been put yet.  The first-round call is the defect of the
    current revision that C7 meets too. *)
Theorem harvest_three_ascending ring v1 v2 v3 ring' :
  ring_wf ring -> ring_pow2 ring -> ring_backed ring ->
  dirty_index ring = reset_index ring ->
  3 <= size ring ->
  push_seq ring
    [ {| req_vcpu := v1; req_slot := 1; req_offset := 0 |};
      {| req_vcpu := v2; req_slot := 1; req_offset := 1 |};
      {| req_vcpu := v3; req_slot := 1; req_offset := 2 |} ] = Some ring' ->
  exists res,
    harvest_all ring' = Some res /\
    reset_ret res = 3 /\
    reset_calls res =
    [ {| call_slot := 0; call_offset := 0; call_mask := 0 |};
      {| call_slot := 1; call_offset := 0; call_mask := 7 |} ].
Proof.
  intros Hwf Hp Hb Hempty Hsz Hseq.
  destruct (push_seq_harvest _ _ _ Hseq Hwf Hp Hb Hempty)
    as (res & Hres & Hret & Hcalls); [simpl; unfold INT_MAX; lia.. |].
  exists res. split; [assumption|]. split; [assumption|].
  rewrite Hcalls. reflexivity.
Qed.

(** C6, with the mask the code computes.  Into an empty ring whose size
    is a power of two and at least two, with an entry array of that size,
    push (1,5), (1,3), each push returning 0, and reset with
    [fetch_index = dirty_index]: exactly one call of [kvm_reset_dirty_gfn]
    carries a mask that is not empty, and its arguments are
    (slot 1, offset 3, mask 0b101): bit 0 for offset 3, bit 2 for
    offset 5.  Nothing is said of calls with an empty mask. *)
Theorem harvest_backward_pair ring v1 v2 ring' :
  ring_wf ring -> ring_pow2 ring -> ring_backed ring ->
  dirty_index ring = reset_index ring ->
  2 <= size ring ->
  push_seq ring
    [ {| req_vcpu := v1; req_slot := 1; req_offset := 5 |};
      {| req_vcpu := v2; req_slot := 1; req_offset := 3 |} ] = Some ring' ->
  exists res,
    harvest_all ring' = Some res /\
    nonempty_calls (reset_calls res) =
    [ {| call_slot := 1; call_offset := 3; call_mask := 5 |} ].
Proof.
  intros Hwf Hp Hb Hempty Hsz Hseq.
  destruct (push_seq_harvest _ _ _ Hseq Hwf Hp Hb Hempty)
    as (res & Hres & _ & Hcalls); [simpl; unfold INT_MAX; lia.. |].
  exists res. split; [assumption|].
  rewrite Hcalls. reflexivity.
Qed.

(** ** Runs, as computed *)

Lemma run_ops_sound guarded ring0 ops : forall ring pushed consumed result,
  ring_run guarded ring0 ring pushed consumed ->
  run_ops guarded ring pushed consumed ops = Some result ->
  ring_run guarded ring0 (fst (fst result)) (snd (fst result)) (snd result).
Proof.
  induction ops as [|op ops IH]; intros ring pushed consumed result Hrun Hops.
  - injection Hops as <-. assumption.
  - simpl in Hops.
    destruct (ring_step guarded ring op) as [[[ring' p] c]|] eqn:Hstep;
      [|discriminate].
    eapply IH; [|exact Hops]. eapply run_step; eassumption.
Qed.

(** * Instances *)


Lemma reset_range_check_witness :
  ring_wf example_ring_one /\
  size example_ring_one < 2 ^ 32 - EINVAL /\
  exists res, kvm_dirty_ring_reset example_ring_one = Some res /\
              reset_ret res <> - EINVAL.
Proof.
  assert (Hwf : ring_wf example_ring_one) by (constructor; by_computation).
  assert (Hsz : size example_ring_one < 2 ^ 32 - EINVAL) by reflexivity.
  split; [exact Hwf|]. split; [exact Hsz|].
  apply (reset_range_check example_ring_one Hwf Hsz).
  vm_compute. congruence.
Defined.

Lemma reset_idempotent_witness :
  ring_wf example_ring_one /\
  forall res,
    kvm_dirty_ring_reset example_ring_one = Some res ->
    reset_ret res <> - EINVAL ->
    kvm_dirty_ring_reset (reset_ring res) =
    Some {| reset_ret := 0; reset_ring := reset_ring res; reset_calls := [] |}.
Proof.
  assert (Hwf : ring_wf example_ring_one) by (constructor; by_computation).
  split; [exact Hwf|]. intros res Hres Hret.
  apply (proj2 (reset_idempotent example_ring_one Hwf) res Hres Hret).
Defined.

Lemma reset_single_entry_witness :
  ring_wf example_ring_one /\
  1 <= size example_ring_one /\
  u32 (fetch_index (indices example_ring_one) - reset_index example_ring_one) = 1 /\
  exists res,
    kvm_dirty_ring_reset example_ring_one = Some res /\
    reset_ret res = 1 /\
    reset_calls res =
    [ {| call_slot := 0; call_offset := 0; call_mask := 0 |};
      {| call_slot := 7; call_offset := 9; call_mask := 1 |} ].
Proof.
  assert (Hwf : ring_wf example_ring_one) by (constructor; by_computation).
  assert (Hsz : 1 <= size example_ring_one) by by_computation.
  assert (Hd : u32 (fetch_index (indices example_ring_one)
                    - reset_index example_ring_one) = 1) by reflexivity.
  split; [exact Hwf|]. split; [exact Hsz|]. split; [exact Hd|].
  exact (reset_single_entry example_ring_one Hwf Hsz Hd).
Defined.

Lemma used_and_range_check_wrap_safe_witness :
  kvm_dirty_ring_used example_ring_wrapped = 3 /\
  fetch_out_of_range example_ring_wrapped 126 = false /\
  fetch_out_of_range example_ring_wrapped 127 = true.
Proof.
  assert (Hs : is_u32 (size example_ring_wrapped)) by by_computation.
  assert (Hd : dirty_index example_ring_wrapped = u32 (2 ^ 32 + 1)) by reflexivity.
  assert (Hr : reset_index example_ring_wrapped = u32 (2 ^ 32 - 2)) by reflexivity.
  assert (Hle : 2 ^ 32 - 2 <= 2 ^ 32 + 1 <= 2 ^ 32 - 2 + size example_ring_wrapped)
    by by_computation.
  destruct (used_and_range_check_wrap_safe example_ring_wrapped
              (2 ^ 32 + 1) (2 ^ 32 - 2) Hs Hd Hr Hle) as [Hused Hcheck].
  split; [exact Hused|]. split.
  - apply (Hcheck 126); [by_computation|].
    exists (2 ^ 32 + 126). by_computation.
  - destruct (fetch_out_of_range example_ring_wrapped 127) eqn:E; [reflexivity|].
    apply (Hcheck 127) in E; [|by_computation].
    destruct E as (fetched & Hin & Hf). exfalso.
    unfold u32 in Hf. simpl in Hin. zmod.
Defined.

Lemma push_writes_entry_witness :
  ring_pow2 example_ring_wrapped /\
  ring_backed example_ring_wrapped /\
  push_ret (kvm_dirty_ring_push None example_ring_wrapped 3 4) = 0 /\
  dirty_gfns (push_ring (kvm_dirty_ring_push None example_ring_wrapped 3 4))
    !! 1%nat = Some {| slot := 3; offset := 4 |} /\
  dirty_index (push_ring (kvm_dirty_ring_push None example_ring_wrapped 3 4)) = 2.
Proof.
  assert (Hp : ring_pow2 example_ring_wrapped) by (exists 7; by_computation).
  assert (Hb : ring_backed example_ring_wrapped) by reflexivity.
  assert (Hret : push_ret (kvm_dirty_ring_push None example_ring_wrapped 3 4) = 0)
    by reflexivity.
  split; [exact Hp|]. split; [exact Hb|]. split; [exact Hret|].
  destruct (push_writes_entry None example_ring_wrapped 3 4 Hp Hb Hret)
    as (Hlook & _ & Hd & _).
  split; [exact Hlook | exact Hd].
Defined.

Lemma push_then_harvest_witness :
  exists ring res,
    push_seq example_ring (three_ascending None) = Some ring /\
    Z.of_nat (length (three_ascending None)) <= soft_limit example_ring /\
    harvest_all ring = Some res /\
    reset_ret res = 3 /\
    reset_index (reset_ring res) = dirty_index (reset_ring res).
Proof.
  destruct (push_seq example_ring (three_ascending None)) as [ring|] eqn:Hseq;
    [|vm_compute in Hseq; discriminate].
  assert (Hn : Z.of_nat (length (three_ascending None)) <= soft_limit example_ring)
    by by_computation.
  destruct (push_then_harvest 16 64 0 ltac:(lia) zero_ring zero_indices 0 2048
              (three_ascending None) ring)
    as (res & Hres & Hret & Hidx);
    [by_computation | by_computation | by_computation | by_computation
    | exact Hseq | exact Hn |].
  exists ring, res. repeat split; assumption.
Defined.

Lemma ring_counters_invariant_witness :
  exists ring,
    run_ops true example_ring 0 0 example_ops = Some (ring, 2, 1) /\
    counters_ok ring 2 1 /\
    kvm_dirty_ring_used ring = 2 - 1 /\
    size ring = 2048 / 16.
Proof.
  destruct (run_ops true example_ring 0 0 example_ops) as [[[ring p] c]|] eqn:Hops;
    [|vm_compute in Hops; discriminate].
  assert (Hp : p = 2) by (vm_compute in Hops; congruence).
  assert (Hc : c = 1) by (vm_compute in Hops; congruence).
  subst p c. exists ring. split; [reflexivity|].
  apply (ring_counters_invariant 16 64 0 ltac:(lia) zero_ring zero_indices 0 2048);
    [by_computation | by_computation | by_computation |].
  exact (run_ops_sound true example_ring example_ops example_ring 0 0 _
           (run_nil true example_ring) Hops).
Defined.

Lemma harvest_three_ascending_witness :
  exists ring res,
    push_seq example_ring (three_ascending (Some 0)) = Some ring /\
    harvest_all ring = Some res /\
    reset_ret res = 3 /\
    reset_calls res =
    [ {| call_slot := 0; call_offset := 0; call_mask := 0 |};
      {| call_slot := 1; call_offset := 0; call_mask := 7 |} ].
Proof.
  destruct (push_seq example_ring (three_ascending (Some 0))) as [ring|] eqn:Hseq;
    [|vm_compute in Hseq; discriminate].
  destruct (harvest_three_ascending example_ring (Some 0) (Some 0) (Some 0) ring)
    as (res & Hres & Hret & Hcalls);
    [ constructor; by_computation | exists 7; by_computation | reflexivity
    | reflexivity | by_computation | exact Hseq |].
  exists ring, res. repeat split; assumption.
Defined.

Lemma harvest_backward_pair_witness :
  exists ring res,
    push_seq example_ring (backward_pair (Some 0)) = Some ring /\
    harvest_all ring = Some res /\
    nonempty_calls (reset_calls res) =
    [ {| call_slot := 1; call_offset := 3; call_mask := 5 |} ].
Proof.
  destruct (push_seq example_ring (backward_pair (Some 0))) as [ring|] eqn:Hseq;
    [|vm_compute in Hseq; discriminate].
  destruct (harvest_backward_pair example_ring (Some 0) (Some 0) ring)
    as (res & Hres & Hcalls);
    [ constructor; by_computation | exists 7; by_computation | reflexivity
    | reflexivity | by_computation | exact Hseq |].
  exists ring, res. split; [reflexivity|]. split; assumption.
Defined.

(** * Where the claims as written fail *)

(** C1 as written fails in two ways.  On the fresh [example_ring],
    userspace publishes [fetch_index = 1] although nothing was pushed: the
    range check compares with [size] only, reset returns 1 and
    [reset_index] is 1 past [dirty_index] 0.  And 129 pushes from a vCPU
    context into the 128-entry ring all return 0 (the last one only
    warns), leaving [dirty_index] 129 beyond [reset_index + size]. *)
Lemma ring_counters_invariant_counterexample :
  (exists ring,
     run_ops false example_ring 0 0 [OpFetch 1; OpReset] = Some (ring, 0, 1) /\
     ring_run false example_ring ring 0 1 /\
     dirty_index ring = 0 /\ reset_index ring = 1 /\
     ~ counters_ok ring 0 1) /\
  (exists ring,
     run_ops false example_ring 0 0 (repeat (OpPush (Some 0) 1 0) 129)
       = Some (ring, 129, 0) /\
     ring_run false example_ring ring 129 0 /\
     dirty_index ring = 129 /\ reset_index ring = 0 /\ size ring = 128 /\
     ~ counters_ok ring 129 0).
Proof.
  split.
  - destruct (run_ops false example_ring 0 0 [OpFetch 1; OpReset])
      as [[[ring p] c]|] eqn:Hops; [|vm_compute in Hops; discriminate].
    pose proof (run_ops_sound false example_ring _ example_ring 0 0 _
                  (run_nil false example_ring) Hops) as Hrun.
    vm_compute in Hops. injection Hops as <- <- <-.
    eexists. split; [reflexivity|]. split; [exact Hrun|].
    split; [reflexivity|]. split; [reflexivity|].
    intros (_ & _ & Hle). simpl in Hle. lia.
  - destruct (run_ops false example_ring 0 0 (repeat (OpPush (Some 0) 1 0) 129))
      as [[[ring p] c]|] eqn:Hops; [|vm_compute in Hops; discriminate].
    pose proof (run_ops_sound false example_ring _ example_ring 0 0 _
                  (run_nil false example_ring) Hops) as Hrun.
    vm_compute in Hops. injection Hops as <- <- <-.
    eexists. split; [reflexivity|]. split; [exact Hrun|].
    split; [reflexivity|]. split; [reflexivity|]. split; [reflexivity|].
    intros (_ & _ & Hle). simpl in Hle. lia.
Qed.

(** C4 as written fails in its last clause.  A push from vCPU 0 into the
    empty [example_ring] and one into [example_ring_soft_full] both
    return 0, yet the first ring is not soft-full before or after the push
    and the second is soft-full before and after: no reading of the
    returned value tells the two apart. *)
Lemma push_busy_iff_counterexample :
  push_ret (kvm_dirty_ring_push (Some 0) example_ring 1 0) = 0 /\
  push_ret (kvm_dirty_ring_push (Some 0) example_ring_soft_full 1 0) = 0 /\
  kvm_dirty_ring_soft_full example_ring = false /\
  kvm_dirty_ring_soft_full
    (push_ring (kvm_dirty_ring_push (Some 0) example_ring 1 0)) = false /\
  kvm_dirty_ring_soft_full example_ring_soft_full = true /\
  kvm_dirty_ring_soft_full
    (push_ring (kvm_dirty_ring_push (Some 0) example_ring_soft_full 1 0)) = true /\
  ~ (exists indicator : Z -> bool,
       forall running_vcpu ring s o,
         ring_wf ring ->
         push_ret (kvm_dirty_ring_push running_vcpu ring s o) <> - EBUSY ->
         indicator (push_ret (kvm_dirty_ring_push running_vcpu ring s o)) =
         kvm_dirty_ring_soft_full
           (push_ring (kvm_dirty_ring_push running_vcpu ring s o))).
Proof.
  repeat (split; [reflexivity|]).
  intros (indicator & H).
  pose proof (H (Some 0) example_ring 1 0) as H1.
  pose proof (H (Some 0) example_ring_soft_full 1 0) as H2.
  assert (Hwf1 : ring_wf example_ring) by (constructor; by_computation).
  assert (Hwf2 : ring_wf example_ring_soft_full) by (constructor; by_computation).
  specialize (H1 Hwf1). specialize (H2 Hwf2).
  change (push_ret (kvm_dirty_ring_push (Some 0) example_ring 1 0)) with 0 in H1.
  change (push_ret (kvm_dirty_ring_push (Some 0) example_ring_soft_full 1 0))
    with 0 in H2.
  change (kvm_dirty_ring_soft_full
            (push_ring (kvm_dirty_ring_push (Some 0) example_ring 1 0)))
    with false in H1.
  change (kvm_dirty_ring_soft_full
            (push_ring (kvm_dirty_ring_push (Some 0) example_ring_soft_full 1 0)))
    with true in H2.
  assert (E : - EBUSY <> 0) by (unfold EBUSY; lia).
  rewrite H1 in H2 by congruence. specialize (H2 ltac:(congruence)).
  discriminate.
Qed.

(** The run of C5 on [example_ring]: the three pushes are harvested by
    two calls of [kvm_reset_dirty_gfn], not one. *)
Lemma harvest_three_ascending_counterexample :
  harvest_calls example_ring (three_ascending (Some 0)) =
  Some [ {| call_slot := 0; call_offset := 0; call_mask := 0 |};
         {| call_slot := 1; call_offset := 0; call_mask := 7 |} ] /\
  harvest_calls example_ring (three_ascending (Some 0)) <>
  Some [ {| call_slot := 1; call_offset := 0; call_mask := 7 |} ].
Proof. split; [reflexivity | vm_compute; congruence]. Qed.

(** C6 as written fails on the mask: of the calls that harvest the two
    pushes into [example_ring], the one that names pages has mask 0b101
    (5), and none has mask 0b100100 (36). *)
Lemma harvest_backward_pair_counterexample :
  option_map nonempty_calls
    (harvest_calls example_ring (backward_pair (Some 0))) =
  Some [ {| call_slot := 1; call_offset := 3; call_mask := 5 |} ] /\
  option_map (existsb (fun c => call_mask c =? 36))
    (harvest_calls example_ring (backward_pair (Some 0))) = Some false /\
  harvest_calls example_ring (backward_pair (Some 0)) <>
  Some [ {| call_slot := 1; call_offset := 3; call_mask := 36 |} ].
Proof. split; [reflexivity | split; [reflexivity | vm_compute; congruence]]. Qed.

(** The run of C7 on [example_ring_one]: the reset, whose batch is the
    single entry (7, 9), calls [kvm_reset_dirty_gfn] twice. *)
Lemma reset_single_entry_counterexample :
  u32 (fetch_index (indices example_ring_one) - reset_index example_ring_one) = 1 /\
  option_map reset_calls (kvm_dirty_ring_reset example_ring_one) =
  Some [ {| call_slot := 0; call_offset := 0; call_mask := 0 |};
         {| call_slot := 7; call_offset := 9; call_mask := 1 |} ] /\
  option_map (fun res => length (reset_calls res))
    (kvm_dirty_ring_reset example_ring_one) <> Some 1%nat.
Proof. split; [reflexivity | split; [reflexivity | vm_compute; congruence]]. Qed.

(** * Further properties *)

(** ** Bits of the mask *)

Lemma testbit_one i : Z.testbit 1 i = (i =? 0).
Proof.
  change 1 with (2 ^ 0). rewrite Z.pow2_bits_eqb by lia.
  destruct (Z.eqb_spec 0 i), (Z.eqb_spec i 0); (reflexivity || lia).
Qed.

Lemma mask_forward_bits m d i :
  0 <= d < 64 -> 0 <= i < 64 ->
  Z.testbit (ulong (Z.lor m (u64 (Z.shiftl 1 d)))) i =
  Z.testbit m i || (i =? d).
Proof.
  intros Hd Hi. unfold ulong, u64.
  rewrite Z.mod_pow2_bits_low, Z.lor_spec, Z.mod_pow2_bits_low by lia.
  rewrite Z.shiftl_1_l, Z.pow2_bits_eqb by lia.
  f_equal. destruct (Z.eqb_spec d i), (Z.eqb_spec i d); (reflexivity || lia).
Qed.

Lemma mask_backward_bits m k i :
  0 < k < 64 -> 0 <= i < 64 ->
  Z.testbit (Z.lor (ulong (Z.shiftl m k)) 1) i =
  Z.testbit m (i - k) || (i =? 0).
Proof.
  intros Hk Hi. unfold ulong, u64.
  rewrite Z.lor_spec, Z.mod_pow2_bits_low, Z.shiftl_spec, testbit_one by lia.
  reflexivity.
Qed.

(** What the overflow guard [(mask << k >> k) == mask] buys: no set bit
    of the mask is within [k] of the top. *)
Lemma mask_guard_room m k j :
  0 < k < 64 -> 0 <= j ->
  Z.shiftr (ulong (Z.shiftl m k)) k = m ->
  Z.testbit m j = true ->
  j + k < 64.
Proof.
  intros Hk Hj Hg Hb. destruct (Z.lt_ge_cases (j + k) 64) as [|Hge]; [assumption|].
  rewrite <- Hg, Z.shiftr_spec in Hb by lia.
  unfold ulong, u64 in Hb. rewrite Z.mod_pow2_bits_high in Hb by lia.
  discriminate.
Qed.

Lemma offset_forward c o :
  is_u64 c -> is_u64 o -> 0 <= s64 (o - c) -> u64 (c + s64 (o - c)) = o.
Proof. unfold is_u64, u64, s64. intros. zmod. Qed.

Lemma offset_backward c o j :
  is_u64 c -> is_u64 o -> s64 (o - c) < 0 ->
  u64 (o + (j - s64 (o - c))) = u64 (c + j).
Proof. unfold is_u64, u64, s64. intros. zmod. Qed.

(** ** Pages named by calls *)

Lemma in_call_pages c p :
  In p (call_pages c) <->
  exists i, 0 <= i < 64 /\ Z.testbit (call_mask c) i = true /\
            p = (call_slot c, u64 (call_offset c + i)).
Proof.
  unfold call_pages. rewrite in_map_iff. split.
  - intros (i & <- & Hi). apply List.filter_In in Hi as [Hi Hb].
    apply list_elem_of_In, elem_of_seqZ in Hi. unfold BITS_PER_LONG in Hi.
    exists i. repeat split; (assumption || lia).
  - intros (i & Hi & Hb & ->). exists i. split; [reflexivity|].
    apply List.filter_In. split; [|assumption].
    apply list_elem_of_In, elem_of_seqZ. unfold BITS_PER_LONG. lia.
Qed.

Lemma in_calls_pages_app cs1 cs2 p :
  In p (calls_pages (cs1 ++ cs2)) <->
  In p (calls_pages cs1) \/ In p (calls_pages cs2).
Proof. unfold calls_pages. rewrite map_app, concat_app. apply in_app_iff. Qed.

Lemma in_calls_pages_one c p :
  In p (calls_pages [c]) <-> In p (call_pages c).
Proof. unfold calls_pages. simpl. rewrite app_nil_r. reflexivity. Qed.

Lemma in_calls_pages_nil p : In p (calls_pages []) <-> False.
Proof. reflexivity. Qed.

Lemma in_call_pages_seed s o p :
  is_u64 o ->
  In p (call_pages {| call_slot := s; call_offset := o; call_mask := 1 |}) <->
  p = (s, o).
Proof.
  intros Ho. rewrite in_call_pages. simpl. split.
  - intros (i & Hi & Hb & ->). rewrite testbit_one in Hb.
    apply Z.eqb_eq in Hb. subst i. rewrite Z.add_0_r.
    unfold u64. rewrite Z.mod_small by exact Ho. reflexivity.
  - intros ->. exists 0. split; [lia|]. split; [reflexivity|].
    rewrite Z.add_0_r. unfold u64. rewrite Z.mod_small by exact Ho. reflexivity.
Qed.

(** One entry through [coalesce]: the pages flushed together with the
    pages still in the batch are the pages that were in the batch together
    with the page of the entry. *)
Lemma coalesce_pages l s o l' cs :
  is_u64 (cur_offset l) -> is_u64 o ->
  coalesce l s o = (l', cs) ->
  is_u64 (cur_offset l') /\
  forall p,
    In p (calls_pages cs) \/ In p (call_pages (flush_call l')) <->
    In p (call_pages (flush_call l)) \/ p = (s, o).
Proof.
  intros Hc Ho Hco.
  assert (Hflush : forall l1,
    l1 = {| cur_slot := s; cur_offset := o; mask := 1;
            count := int (count l + 1); first_round := false |} ->
    (l1, [flush_call l]) = (l', cs) ->
    is_u64 (cur_offset l') /\
    forall p,
      In p (calls_pages cs) \/ In p (call_pages (flush_call l')) <->
      In p (call_pages (flush_call l)) \/ p = (s, o)).
  { intros l1 -> E. injection E as <- <-. split; [exact Ho|]. intros p.
    rewrite in_calls_pages_one.
    unfold flush_call at 2. simpl. rewrite (in_call_pages_seed s o p Ho).
    reflexivity. }
  unfold coalesce in Hco.
  destruct (negb (first_round l) && (s =? cur_slot l)) eqn:Hsame;
    [|eapply Hflush; [reflexivity | exact Hco]].
  apply andb_true_iff in Hsame as [_ Hs%Z.eqb_eq].
  set (delta := s64 (o - cur_offset l)) in *.
  destruct ((0 <=? delta) && (delta <? BITS_PER_LONG)) eqn:Hfwd.
  { apply andb_true_iff in Hfwd as [H0%Z.leb_le H1%Z.ltb_lt].
    unfold BITS_PER_LONG in H1. injection Hco as <- <-.
    split; [exact Hc|]. intros p. rewrite in_calls_pages_nil.
    rewrite !in_call_pages. simpl. split.
    - intros [[]|(i & Hi & Hb & ->)].
      rewrite mask_forward_bits in Hb by lia.
      apply orb_true_iff in Hb as [Hb|Hb%Z.eqb_eq].
      + left. exists i. auto.
      + right. subst i s. unfold delta.
        rewrite offset_forward by assumption. reflexivity.
    - intros [(i & Hi & Hb & ->)| ->]; right.
      + exists i. split; [assumption|]. split; [|reflexivity].
        rewrite mask_forward_bits by lia. rewrite Hb. reflexivity.
      + exists delta. split; [lia|]. split.
        * rewrite mask_forward_bits, Z.eqb_refl by lia. apply orb_true_r.
        * subst s. unfold delta. rewrite offset_forward by assumption.
          reflexivity. }
  destruct ((- BITS_PER_LONG <? delta) && (delta <? 0) &&
            (Z.shiftr (ulong (Z.shiftl (mask l) (- delta))) (- delta) =? mask l))
    eqn:Hbwd; [|eapply Hflush; [reflexivity | exact Hco]].
  apply andb_true_iff in Hbwd as [Hbwd Hg%Z.eqb_eq].
  apply andb_true_iff in Hbwd as [H0%Z.ltb_lt H1%Z.ltb_lt].
  unfold BITS_PER_LONG in H0. injection Hco as <- <-.
  split; [exact Ho|]. intros p. rewrite in_calls_pages_nil.
  rewrite !in_call_pages. simpl. split.
  - intros [[]|(i & Hi & Hb & ->)].
    rewrite mask_backward_bits in Hb by lia.
    apply orb_true_iff in Hb as [Hb|Hb%Z.eqb_eq].
    + left. exists (i - - delta).
      assert (0 <= i - - delta).
      { destruct (Z.lt_ge_cases (i - - delta) 0) as [Hneg|]; [|assumption].
        rewrite Z.testbit_neg_r in Hb by assumption. discriminate. }
      split; [lia|]. split; [assumption|]. f_equal.
      rewrite <- (offset_backward (cur_offset l) o (i - - delta)) by
        (assumption || exact H1).
      fold delta. f_equal; lia.
    + right. subst i. rewrite Z.add_0_r. unfold u64.
      rewrite Z.mod_small by exact Ho. subst s. reflexivity.
  - intros [(j & Hj & Hb & ->)| ->]; right.
    + pose proof (mask_guard_room (mask l) (- delta) j ltac:(lia) ltac:(lia) Hg Hb).
      exists (j + - delta). split; [lia|]. split.
      * rewrite mask_backward_bits by lia.
        replace (j + - delta - - delta) with j by lia. rewrite Hb. reflexivity.
      * f_equal.
        rewrite <- (offset_backward (cur_offset l) o j) by (assumption || exact H1).
        fold delta. f_equal; lia.
    + exists 0. split; [lia|]. split.
      * rewrite mask_backward_bits by lia. apply orb_true_r.
      * rewrite Z.add_0_r. unfold u64. rewrite Z.mod_small by exact Ho.
        subst s. reflexivity.
Qed.

Lemma coalesce_all_pages es : forall l l' cs,
  is_u64 (cur_offset l) ->
  Forall gfn_wf es ->
  coalesce_all l es = (l', cs) ->
  forall p,
    In p (calls_pages cs) \/ In p (call_pages (flush_call l')) <->
    In p (call_pages (flush_call l)) \/ In p (map gfn_page es).
Proof.
  induction es as [|e es IH]; intros l l' cs Hc Hes Hco p.
  - injection Hco as <- <-. simpl. tauto.
  - simpl in Hco. inversion Hes as [|? ? [_ He] Hes']; subst.
    destruct (coalesce l (slot e) (offset e)) as [l1 c1] eqn:H1.
    destruct (coalesce_all l1 es) as [l2 c2] eqn:H2.
    injection Hco as <- <-.
    destruct (coalesce_pages _ _ _ _ _ Hc He H1) as [Hc1 Hstep].
    specialize (IH _ _ _ Hc1 Hes' H2 p). specialize (Hstep p).
    rewrite in_calls_pages_app. simpl. unfold gfn_page at 1.
    assert (Hsym : (slot e, offset e) = p <-> p = (slot e, offset e))
      by (split; intros; congruence).
    tauto.
Qed.

Lemma gfn_at_wf ring i : gfns_wf ring -> gfn_wf (gfn_at ring i).
Proof.
  intros Hwf. unfold gfn_at.
  destruct (dirty_gfns ring !! Z.to_nat i) as [e|] eqn:E; simpl.
  - unfold gfns_wf in Hwf. rewrite Forall_forall in Hwf.
    apply Hwf. eapply list_elem_of_lookup_2. exact E.
  - split; [unfold is_u32 | unfold is_u64]; simpl; lia.
Qed.

Lemma walk_wf ring start n : gfns_wf ring -> Forall gfn_wf (walk ring start n).
Proof.
  intros Hwf. revert start. induction n as [|n IH]; intros start; simpl.
  - constructor.
  - constructor; [apply gfn_at_wf; assumption | apply IH].
Qed.

Lemma in_call_pages_zero_mask s o p :
  In p (call_pages {| call_slot := s; call_offset := o; call_mask := 0 |}) <->
  False.
Proof.
  rewrite in_call_pages. simpl. split; [|tauto].
  intros (i & _ & Hb & _). rewrite Z.bits_0 in Hb. discriminate.
Qed.

(** Coalescing loses no page and invents none.  For a reset that passes
    the range check, the pages named by the calls of
    [kvm_reset_dirty_gfn] (bit i of the mask standing for offset + i) are
    exactly the (slot, offset) pairs of the entries between [reset_index]
    and [fetch_index]. *)
Theorem reset_calls_cover ring res :
  ring_wf ring ->
  gfns_wf ring ->
  u32 (fetch_index (indices ring) - reset_index ring) <= size ring ->
  kvm_dirty_ring_reset ring = Some res ->
  forall p,
    In p (calls_pages (reset_calls res)) <->
    In p (map gfn_page
            (walk ring (reset_index ring)
               (Z.to_nat (u32 (fetch_index (indices ring) - reset_index ring))))).
Proof.
  intros Hwf Hg Hd Hres p.
  destruct (Z.eq_dec (u32 (fetch_index (indices ring) - reset_index ring)) 0)
    as [E|E].
  - rewrite E. pose proof Hwf as [].
    apply u32_dist_zero in E; [|assumption..].
    rewrite reset_nothing in Hres; [| unfold is_u32 in *; lia | assumption].
    injection Hres as <-. simpl. tauto.
  - pose proof (u32_range (fetch_index (indices ring) - reset_index ring)) as Hr.
    rewrite reset_walk in Hres; [| assumption | unfold is_u32 in *; lia].
    cbv zeta in Hres. injection Hres as <-. simpl.
    destruct (coalesce_all reset_locals0 _) as [l cs] eqn:Hco.
    assert (H0 : is_u64 (cur_offset reset_locals0))
      by (unfold is_u64; simpl; lia).
    pose proof (coalesce_all_pages _ _ _ _ H0 (walk_wf ring _ _ Hg) Hco p) as Hp.
    simpl. rewrite in_calls_pages_app, in_calls_pages_one.
    change (flush_call reset_locals0)
      with {| call_slot := 0; call_offset := 0; call_mask := 0 |} in Hp.
    rewrite in_call_pages_zero_mask in Hp. tauto.
Qed.

(** ** The shape of the calls *)

Lemma lor_one_range x : 0 <= Z.lor (u64 x) 1 < 2 ^ 64.
Proof.
  assert (E : Z.lor (u64 x) 1 = u64 (Z.lor (u64 x) 1)).
  { unfold u64. apply Z.bits_inj'. intros n Hn.
    destruct (Z.lt_ge_cases n 64).
    - rewrite (Z.mod_pow2_bits_low (Z.lor _ _)) by lia. reflexivity.
    - rewrite (Z.mod_pow2_bits_high (Z.lor _ _)) by lia.
      rewrite Z.lor_spec, Z.mod_pow2_bits_high, testbit_one by lia.
      destruct (Z.eqb_spec n 0); [lia | reflexivity]. }
  rewrite E. unfold u64. apply Z.mod_pos_bound. lia.
Qed.

Lemma bit0_positive m : 0 <= m -> Z.testbit m 0 = true -> 0 < m.
Proof.
  intros Hm Hb. destruct (Z.eq_dec m 0) as [->|]; [|lia].
  rewrite Z.bits_0 in Hb. discriminate.
Qed.

(** Past the first round the batch always holds its own base page: bit 0
    of the mask is set, and the mask fits 64 bits. *)
Lemma coalesce_shape l s o l' cs :
  first_round l = false ->
  Z.testbit (mask l) 0 = true ->
  0 <= mask l < 2 ^ 64 ->
  coalesce l s o = (l', cs) ->
  (first_round l' = false /\ Z.testbit (mask l') 0 = true /\
   0 <= mask l' < 2 ^ 64) /\
  Forall (fun c => Z.testbit (call_mask c) 0 = true /\
                   0 < call_mask c < 2 ^ 64) cs /\
  (length cs <= 1)%nat.
Proof.
  intros Hfr Hb Hm Hco. unfold coalesce in Hco.
  assert (Hflush : forall l1,
    l1 = {| cur_slot := s; cur_offset := o; mask := 1;
            count := int (count l + 1); first_round := false |} ->
    (l1, [flush_call l]) = (l', cs) ->
    (first_round l' = false /\ Z.testbit (mask l') 0 = true /\
     0 <= mask l' < 2 ^ 64) /\
    Forall (fun c => Z.testbit (call_mask c) 0 = true /\
                     0 < call_mask c < 2 ^ 64) cs /\
    (length cs <= 1)%nat).
  { intros l1 -> E. injection E as <- <-. simpl.
    split; [repeat split; lia|]. split; [|lia].
    constructor; [|constructor]. simpl.
    pose proof (bit0_positive (mask l) ltac:(lia) Hb). split; [assumption | lia]. }
  destruct (negb (first_round l) && (s =? cur_slot l));
    [|eapply Hflush; [reflexivity | exact Hco]].
  set (delta := s64 (o - cur_offset l)) in *.
  destruct ((0 <=? delta) && (delta <? BITS_PER_LONG)) eqn:Hfwd.
  { apply andb_true_iff in Hfwd as [H0%Z.leb_le H1%Z.ltb_lt].
    unfold BITS_PER_LONG in H1. injection Hco as <- <-.
    cbn [first_round mask].
    split; [|split; [constructor | simpl; lia]].
    split; [assumption|]. split.
    - rewrite mask_forward_bits, Hb by lia. reflexivity.
    - unfold ulong, u64. apply Z.mod_pos_bound. lia. }
  destruct ((- BITS_PER_LONG <? delta) && (delta <? 0) &&
            (Z.shiftr (ulong (Z.shiftl (mask l) (- delta))) (- delta) =? mask l))
    eqn:Hbwd; [|eapply Hflush; [reflexivity | exact Hco]].
  apply andb_true_iff in Hbwd as [Hbwd _].
  apply andb_true_iff in Hbwd as [H0%Z.ltb_lt H1%Z.ltb_lt].
  unfold BITS_PER_LONG in H0. injection Hco as <- <-.
  cbn [first_round mask].
  split; [|split; [constructor | simpl; lia]].
  split; [assumption|]. split.
  - rewrite mask_backward_bits by lia. apply orb_true_r.
  - unfold ulong. apply lor_one_range.
Qed.

Lemma coalesce_all_shape es : forall l l' cs,
  first_round l = false ->
  Z.testbit (mask l) 0 = true ->
  0 <= mask l < 2 ^ 64 ->
  coalesce_all l es = (l', cs) ->
  (Z.testbit (mask l') 0 = true /\ 0 <= mask l' < 2 ^ 64) /\
  Forall (fun c => Z.testbit (call_mask c) 0 = true /\
                   0 < call_mask c < 2 ^ 64) cs /\
  (length cs <= length es)%nat.
Proof.
  induction es as [|e es IH]; intros l l' cs Hfr Hb Hm Hco.
  - injection Hco as <- <-. split; [auto|]. split; [constructor | simpl; lia].
  - simpl in Hco.
    destruct (coalesce l (slot e) (offset e)) as [l1 c1] eqn:H1.
    destruct (coalesce_all l1 es) as [l2 c2] eqn:H2.
    injection Hco as <- <-.
    destruct (coalesce_shape _ _ _ _ _ Hfr Hb Hm H1)
      as ((Hfr1 & Hb1 & Hm1) & Hc1 & Hlen1).
    destruct (IH _ _ _ Hfr1 Hb1 Hm1 H2) as (Hl2 & Hc2 & Hlen2).
    split; [assumption|]. split.
    + apply Forall_app. split; assumption.
    + rewrite length_app. simpl. lia.
Qed.

(** A reset with something to consume calls [kvm_reset_dirty_gfn] first
    on (slot 0, offset 0, mask 0); every later call, of which there is at
    least one and at most one per entry consumed, carries a 64-bit mask
    with bit 0 set, so that its base offset is itself a page of an
    entry. *)
Theorem reset_calls_shape ring res :
  ring_wf ring ->
  0 < u32 (fetch_index (indices ring) - reset_index ring) <= size ring ->
  kvm_dirty_ring_reset ring = Some res ->
  exists rest,
    reset_calls res =
      {| call_slot := 0; call_offset := 0; call_mask := 0 |} :: rest /\
    Forall (fun c => Z.testbit (call_mask c) 0 = true /\
                     0 < call_mask c < 2 ^ 64) rest /\
    1 <= Z.of_nat (length rest)
      <= u32 (fetch_index (indices ring) - reset_index ring).
Proof.
  intros Hwf Hd Hres.
  rewrite reset_walk in Hres by assumption. cbv zeta in Hres.
  injection Hres as <-. simpl.
  destruct (Z.to_nat (u32 (fetch_index (indices ring) - reset_index ring)))
    as [|n] eqn:En; [lia|].
  simpl walk. simpl coalesce_all.
  destruct (coalesce_all _ (walk ring _ n)) as [l cs] eqn:Hco.
  pose proof Hco as Hsh.
  apply coalesce_all_shape in Hsh as ((Hb & Hm) & Hcs & Hlen);
    [| reflexivity | reflexivity | simpl; lia].
  rewrite walk_length in Hlen. simpl.
  exists (cs ++ [flush_call l]). split; [reflexivity|]. split.
  - apply Forall_app. split; [assumption|].
    constructor; [|constructor]. simpl.
    pose proof (bit0_positive (mask l) ltac:(lia) Hb). split; [assumption | lia].
  - rewrite length_app. simpl. lia.
Qed.

(** ** The ring as a first-in first-out queue *)

Lemma u32_sub_l a b : u32 (u32 a - b) = u32 (a - b).
Proof. unfold u32. apply Zminus_mod_idemp_l. Qed.

Lemma used_after_push ring :
  kvm_dirty_ring_used (set_dirty_index ring (u32 (dirty_index ring + 1))) =
  u32 (kvm_dirty_ring_used ring + 1).
Proof.
  unfold kvm_dirty_ring_used. simpl. rewrite u32_sub_l, u32_add_l.
  f_equal. lia.
Qed.

Lemma walk_app ring n : forall start m,
  is_u32 start ->
  walk ring start (n + m) =
  walk ring start n ++ walk ring (u32 (start + Z.of_nat n)) m.
Proof.
  induction n as [|n IH]; intros start m Hs.
  - simpl. rewrite Z.add_0_r, u32_small by assumption. reflexivity.
  - rewrite Nat2Z.inj_succ.
    change (S n + m)%nat with (S (n + m)). cbn [walk].
    rewrite IH by apply u32_range.
    rewrite u32_add_l, <- app_comm_cons.
    replace (start + Z.succ (Z.of_nat n)) with (start + 1 + Z.of_nat n) by lia.
    reflexivity.
Qed.

(** A store at a position the walk does not visit does not show in the
    walk. *)
Lemma walk_store_frame ring pos s o n : forall start,
  (forall j, 0 <= j < Z.of_nat n ->
             ring_slot ring (u32 (start + j)) <> pos) ->
  0 <= pos ->
  is_u32 start ->
  walk (store_gfn ring pos s o) start n = walk ring start n.
Proof.
  induction n as [|n IH]; intros start Hfree Hpos Hs; [reflexivity|].
  simpl walk. f_equal.
  - unfold gfn_at, store_gfn, ring_slot. simpl.
    rewrite list_lookup_insert_ne; [reflexivity|].
    specialize (Hfree 0 ltac:(lia)).
    rewrite Z.add_0_r, u32_small in Hfree by assumption.
    unfold ring_slot in Hfree. intros E. apply Hfree.
    pose proof (proj2 (Z.land_nonneg (start) (u32 (size ring - 1))))
      as Hnn.
    specialize (Hnn (or_introl (proj1 Hs))).
    apply Z2Nat.inj in E; lia.
  - apply IH; [| assumption | apply u32_range].
    intros j Hj. rewrite u32_add_l.
    replace (start + 1 + j) with (start + (j + 1)) by lia.
    apply Hfree. lia.
Qed.

Lemma ring_slot_counter ring start j :
  ring_pow2 ring ->
  ring_slot ring (u32 (start + j)) = (start + j) mod size ring.
Proof.
  intros Hp. rewrite ring_slot_mod by assumption. apply u32_mod_size. assumption.
Qed.

(** A push into a ring that is not full appends its entry to the
    pending ones and disturbs none of them. *)
Theorem push_appends_pending running_vcpu ring s o :
  ring_wf ring -> ring_pow2 ring -> ring_backed ring ->
  kvm_dirty_ring_full ring = false ->
  push_ret (kvm_dirty_ring_push running_vcpu ring s o) = 0 ->
  pending (push_ring (kvm_dirty_ring_push running_vcpu ring s o)) =
  pending ring ++ [ {| slot := s; offset := o |} ].
Proof.
  intros Hwf Hp Hb Hfull Hret. rewrite push_ok_ring by assumption.
  pose proof Hp as (k & Hk & Hsz). pose proof (pow2_bounds k Hk) as Hk2.
  unfold kvm_dirty_ring_full in Hfull. apply Z.leb_gt in Hfull.
  pose proof (u32_range (dirty_index ring - reset_index ring)) as Hu.
  fold (kvm_dirty_ring_used ring) in Hu.
  assert (Hd : dirty_index ring =
               u32 (reset_index ring + kvm_dirty_ring_used ring)).
  { unfold kvm_dirty_ring_used. symmetry. apply u32_add_dist; apply Hwf. }
  unfold pending.
  change (kvm_dirty_ring_used (write_avail_index _ _))
    with (kvm_dirty_ring_used
            (set_dirty_index ring (u32 (dirty_index ring + 1)))).
  rewrite used_after_push.
  rewrite (u32_small (kvm_dirty_ring_used ring + 1))
    by (unfold is_u32 in *; lia).
  rewrite Z2Nat.inj_add by (unfold is_u32 in *; lia).
  change (Z.to_nat 1) with 1%nat.
  change (reset_index (write_avail_index _ _)) with (reset_index ring).
  rewrite walk_app by apply Hwf.
  rewrite Z2Nat.id by (unfold is_u32 in *; lia).
  rewrite <- Hd.
  erewrite (walk_ext (write_avail_index _ _)
              (store_gfn ring (ring_slot ring (dirty_index ring)) s o));
    [| reflexivity | reflexivity].
  erewrite (walk_ext (write_avail_index _ _)
              (store_gfn ring (ring_slot ring (dirty_index ring)) s o)
              (dirty_index ring));
    [| reflexivity | reflexivity].
  f_equal.
  - apply walk_store_frame; [| | apply Hwf].
    + intros j Hj. rewrite Z2Nat.id in Hj by (unfold is_u32 in *; lia).
      rewrite ring_slot_counter by assumption.
      rewrite ring_slot_mod, Hd, u32_mod_size by assumption.
      replace (reset_index ring + kvm_dirty_ring_used ring)
        with (reset_index ring + j + (kvm_dirty_ring_used ring - j)) by lia.
      apply not_eq_sym, slot_shift_ne; lia.
    + rewrite ring_slot_mod by assumption.
      apply Z.mod_pos_bound. lia.
  - simpl. f_equal. unfold gfn_at, store_gfn, ring_slot. simpl.
    rewrite list_lookup_insert_eq; [reflexivity|].
    apply (ring_slot_in_range ring (dirty_index ring) Hp Hb).
Qed.

(** A reset whose published [fetch_index] lies within the pending entries
    consumes them oldest first: it returns their number, the pages its
    calls of [kvm_reset_dirty_gfn] name are exactly those of that many
    entries at the front of the queue, what stays pending is the rest, and
    the used count goes down by the number consumed. *)
Theorem reset_drops_pending ring res :
  ring_wf ring ->
  gfns_wf ring ->
  kvm_dirty_ring_used ring <= size ring ->
  u32 (fetch_index (indices ring) - reset_index ring)
    <= kvm_dirty_ring_used ring ->
  kvm_dirty_ring_reset ring = Some res ->
  reset_ret res = int (u32 (fetch_index (indices ring) - reset_index ring)) /\
  (forall p,
     In p (calls_pages (reset_calls res)) <->
     In p (map gfn_page
             (take (Z.to_nat
                      (u32 (fetch_index (indices ring) - reset_index ring)))
                (pending ring)))) /\
  pending (reset_ring res) =
    drop (Z.to_nat (u32 (fetch_index (indices ring) - reset_index ring)))
      (pending ring) /\
  kvm_dirty_ring_used (reset_ring res) =
    kvm_dirty_ring_used ring
    - u32 (fetch_index (indices ring) - reset_index ring).
Proof.
  intros Hwf Hg Hsz Hd Hres.
  pose proof (u32_range (fetch_index (indices ring) - reset_index ring)) as Hk.
  pose proof (u32_range (dirty_index ring - reset_index ring)) as Hu.
  fold (kvm_dirty_ring_used ring) in Hu.
  set (k := u32 (fetch_index (indices ring) - reset_index ring)) in *.
  destruct (reset_cases ring res Hwf Hres)
    as [(Hbad & _) | (_ & Hret & Hring & _)]; [fold k in Hbad; lia|].
  fold k in Hret.
  assert (Hf : u32 (reset_index ring + k) = fetch_index (indices ring))
    by (apply u32_add_dist; apply Hwf).
  assert (Hused : kvm_dirty_ring_used (reset_ring res) =
                  kvm_dirty_ring_used ring - k).
  { rewrite Hring. unfold kvm_dirty_ring_used at 1. simpl.
    rewrite <- Hf. unfold kvm_dirty_ring_used, k, u32, is_u32 in *.
    destruct Hwf as [[] [] _ _ _ []]. unfold is_u32 in *. zmod. }
  assert (Hsplit : pending ring =
                   walk ring (reset_index ring) (Z.to_nat k) ++
                   walk ring (fetch_index (indices ring))
                     (Z.to_nat (kvm_dirty_ring_used ring - k))).
  { unfold pending.
    replace (Z.to_nat (kvm_dirty_ring_used ring))
      with (Z.to_nat k + Z.to_nat (kvm_dirty_ring_used ring - k))%nat
      by (unfold is_u32 in *; lia).
    rewrite walk_app by apply Hwf.
    rewrite Z2Nat.id, Hf by (unfold is_u32 in *; lia). reflexivity. }
  assert (Htake : take (Z.to_nat k) (pending ring) =
                  walk ring (reset_index ring) (Z.to_nat k)).
  { rewrite Hsplit, take_app_length'; [reflexivity|].
    rewrite walk_length. reflexivity. }
  split; [exact Hret|]. split; [|split; [|exact Hused]].
  - intros p. rewrite Htake.
    destruct (Z.eq_dec k 0) as [E|E].
    + rewrite E. pose proof Hwf as [].
      apply u32_dist_zero in E; [|assumption..].
      rewrite reset_nothing in Hres; [| unfold is_u32 in *; lia | assumption].
      injection Hres as <-. simpl. tauto.
    + rewrite reset_walk in Hres;
        [| assumption | fold k; unfold is_u32 in *; lia].
      cbv zeta in Hres. fold k in Hres. injection Hres as <-. simpl.
      destruct (coalesce_all reset_locals0 _) as [l cs] eqn:Hco.
      assert (H0 : is_u64 (cur_offset reset_locals0))
        by (unfold is_u64; simpl; lia).
      pose proof (coalesce_all_pages _ _ _ _ H0 (walk_wf ring _ _ Hg) Hco p)
        as Hp.
      simpl. rewrite in_calls_pages_app, in_calls_pages_one.
      change (flush_call reset_locals0)
        with {| call_slot := 0; call_offset := 0; call_mask := 0 |} in Hp.
      rewrite in_call_pages_zero_mask in Hp. tauto.
  - rewrite Hsplit, drop_app_length' by (rewrite walk_length; reflexivity).
    unfold pending. rewrite Hused, Hring. simpl.
    apply walk_ext; reflexivity.
Qed.

(** On a ring that is exactly full a push from a vCPU context still
    returns 0: the condition of the warning holds, the entry lands on the
    oldest pending entry, which is lost, and the used count passes
    [size]. *)
Theorem push_full_overwrites_oldest v ring s o :
  ring_wf ring -> ring_pow2 ring -> ring_backed ring ->
  kvm_dirty_ring_used ring = size ring ->
  push_ret (kvm_dirty_ring_push (Some v) ring s o) = 0 /\
  push_warned (kvm_dirty_ring_push (Some v) ring s o) = true /\
  gfn_at (push_ring (kvm_dirty_ring_push (Some v) ring s o))
    (ring_slot ring (reset_index ring)) = {| slot := s; offset := o |} /\
  kvm_dirty_ring_used (push_ring (kvm_dirty_ring_push (Some v) ring s o)) =
    size ring + 1.
Proof.
  intros Hwf Hp Hb Hused.
  pose proof Hp as (k & Hk & Hsz). pose proof (pow2_bounds k Hk) as Hk2.
  assert (Hret : push_ret (kvm_dirty_ring_push (Some v) ring s o) = 0)
    by reflexivity.
  split; [exact Hret|]. split.
  { unfold kvm_dirty_ring_push, kvm_dirty_ring_full. simpl.
    apply Z.leb_le. lia. }
  rewrite push_ok_ring by assumption.
  assert (Hd : dirty_index ring =
               u32 (reset_index ring + kvm_dirty_ring_used ring)).
  { unfold kvm_dirty_ring_used. symmetry. apply u32_add_dist; apply Hwf. }
  split.
  - assert (Hsame : ring_slot ring (dirty_index ring) =
                    ring_slot ring (reset_index ring)).
    { rewrite Hd, ring_slot_counter, ring_slot_mod, Hused by assumption.
      rewrite <- (Z.mul_1_l (size ring)) at 1. apply Z.mod_add. lia. }
    unfold gfn_at, store_gfn. simpl. rewrite Hsame.
    rewrite list_lookup_insert_eq; [reflexivity|].
    apply (ring_slot_in_range ring (reset_index ring) Hp Hb).
  - change (kvm_dirty_ring_used (write_avail_index _ _))
      with (kvm_dirty_ring_used
              (set_dirty_index ring (u32 (dirty_index ring + 1)))).
    rewrite used_after_push, Hused. apply u32_small. unfold is_u32. lia.
Qed.

(** A push without a vCPU context that succeeds found the used count
    below [soft_limit] and raises it by one: such pushes never take the
    used count past [soft_limit]. *)
Theorem push_no_vcpu_within_soft_limit ring s o :
  ring_wf ring ->
  push_ret (kvm_dirty_ring_push None ring s o) = 0 ->
  kvm_dirty_ring_used (push_ring (kvm_dirty_ring_push None ring s o)) =
    kvm_dirty_ring_used ring + 1 /\
  kvm_dirty_ring_used (push_ring (kvm_dirty_ring_push None ring s o))
    <= soft_limit ring.
Proof.
  intros Hwf Hret.
  assert (Hlt : kvm_dirty_ring_used ring < soft_limit ring).
  { unfold kvm_dirty_ring_push, kvm_dirty_ring_soft_full in Hret. simpl in Hret.
    destruct (Z.leb_spec (soft_limit ring) (kvm_dirty_ring_used ring));
      [|assumption].
    simpl in Hret. unfold EBUSY in Hret. lia. }
  rewrite push_ok_ring by assumption.
  change (kvm_dirty_ring_used (write_avail_index _ _))
    with (kvm_dirty_ring_used
            (set_dirty_index ring (u32 (dirty_index ring + 1)))).
  pose proof (u32_range (dirty_index ring - reset_index ring)) as Hu.
  fold (kvm_dirty_ring_used ring) in Hu.
  pose proof (wf_soft_limit _ Hwf) as Hs.
  rewrite used_after_push, u32_small by (unfold is_u32 in *; lia).
  lia.
Qed.

(** ** Bounds *)

Lemma land_le_mask x m : 0 <= m -> 0 <= Z.land x m <= m.
Proof.
  intros Hm. apply Z.ldiff_le; [assumption|].
  apply Z.bits_inj'. intros n Hn.
  rewrite Z.ldiff_spec, Z.land_spec, Z.bits_0.
  destruct (Z.testbit x n), (Z.testbit m n); reflexivity.
Qed.

(** Whatever the entry count, power of two or not, as long as there is at
    least one entry a push that returns 0 stores inside the array: the
    position [dirty_index & (size - 1)] is below [size]. *)
Theorem push_stores_in_bounds running_vcpu ring s o :
  ring_wf ring -> ring_backed ring ->
  1 <= size ring ->
  push_ret (kvm_dirty_ring_push running_vcpu ring s o) = 0 ->
  0 <= ring_slot ring (dirty_index ring) < size ring /\
  dirty_gfns (push_ring (kvm_dirty_ring_push running_vcpu ring s o))
    !! Z.to_nat (ring_slot ring (dirty_index ring)) =
    Some {| slot := s; offset := o |} /\
  length (dirty_gfns (push_ring (kvm_dirty_ring_push running_vcpu ring s o))) =
    length (dirty_gfns ring).
Proof.
  intros Hwf Hb Hs Hret. rewrite push_ok_ring by assumption. simpl.
  pose proof (wf_size _ Hwf) as Hsz.
  assert (Hm : u32 (size ring - 1) = size ring - 1)
    by (apply u32_small; unfold is_u32 in *; lia).
  pose proof (land_le_mask (dirty_index ring) (size ring - 1) ltac:(lia)) as Hl.
  unfold ring_slot. rewrite Hm.
  split; [lia|]. split.
  - apply list_lookup_insert_eq. unfold ring_backed in Hb. lia.
  - apply length_insert.
Qed.

(** ** What reset leaves alone *)

(** Whatever it returns, reset writes no field of the ring but
    [reset_index], which it leaves where it was or moves to the published
    [fetch_index]: the entries, [dirty_index], [size], [soft_limit] and
    both published indices are as before. *)
Theorem reset_touches_reset_index_only ring res :
  ring_wf ring ->
  kvm_dirty_ring_reset ring = Some res ->
  dirty_gfns (reset_ring res) = dirty_gfns ring /\
  dirty_index (reset_ring res) = dirty_index ring /\
  size (reset_ring res) = size ring /\
  soft_limit (reset_ring res) = soft_limit ring /\
  indices (reset_ring res) = indices ring /\
  index (reset_ring res) = index ring /\
  (reset_index (reset_ring res) = reset_index ring \/
   reset_index (reset_ring res) = fetch_index (indices ring)).
Proof.
  intros Hwf Hres.
  destruct (reset_cases ring res Hwf Hres)
    as [(_ & _ & Hring & _) | (_ & _ & Hring & _)];
    rewrite Hring; simpl; repeat split; auto.
Qed.

(** ** Push, then harvest *)

(** Round trip.  Push any entries (at most [size] of them) into an empty
    ring and harvest: the count returned is the number pushed, the pages
    named by the calls of [kvm_reset_dirty_gfn] are exactly the pages
    pushed, and the ring is empty again. *)
Theorem push_harvest_round_trip ring reqs ring' :
  ring_wf ring -> ring_pow2 ring -> ring_backed ring ->
  dirty_index ring = reset_index ring ->
  Forall (fun q => gfn_wf (gfn_of_req q)) reqs ->
  Z.of_nat (length reqs) <= size ring ->
  Z.of_nat (length reqs) <= INT_MAX ->
  push_seq ring reqs = Some ring' ->
  exists res,
    harvest_all ring' = Some res /\
    reset_ret res = Z.of_nat (length reqs) /\
    (forall p, In p (calls_pages (reset_calls res)) <->
               In p (map gfn_page (map gfn_of_req reqs))) /\
    pending (reset_ring res) = [].
Proof.
  intros Hwf Hp Hb Hempty Hreqs Hlen Hint Hseq.
  destruct (push_seq_fields _ _ _ Hseq Hwf) as (Hwf' & Hd & Hr & Hs & _).
  pose proof Hp as (k & Hk & Hsz). pose proof (pow2_bounds k Hk) as Hk2.
  assert (Hused : kvm_dirty_ring_used ring' = Z.of_nat (length reqs)).
  { unfold kvm_dirty_ring_used. rewrite Hd, Hr, <- Hempty.
    apply u32_dist_add; [apply Hwf | unfold is_u32; lia]. }
  destruct (harvest_all_spec ring' Hwf')
    as (res & Hres & Hret & Hri & Hdi & Hcalls);
    [rewrite Hused, Hs; assumption | rewrite Hused; assumption |].
  exists res. split; [assumption|]. split; [congruence|]. split.
  - intros p. destruct reqs as [|q reqs].
    + injection Hseq as <-. unfold harvest_all in Hres.
      rewrite reset_nothing in Hres;
        [| simpl; apply (wf_size _ Hwf) | simpl; assumption].
      injection Hres as <-. simpl. tauto.
    + assert (Hpos : 0 < kvm_dirty_ring_used ring')
        by (rewrite Hused; simpl length; lia).
      specialize (Hcalls Hpos). cbv zeta in Hcalls.
      rewrite Hused, Nat2Z.id, Hr, <- Hempty in Hcalls.
      rewrite (push_seq_walk _ _ _ Hseq) in Hcalls by assumption.
      rewrite Hcalls.
      destruct (coalesce_all reset_locals0 _) as [l cs] eqn:Hco.
      assert (H0 : is_u64 (cur_offset reset_locals0))
        by (unfold is_u64; simpl; lia).
      assert (Hg : Forall gfn_wf (map gfn_of_req (q :: reqs))).
      { clear - Hreqs. induction Hreqs; simpl; constructor; assumption. }
      pose proof (coalesce_all_pages _ _ _ _ H0 Hg Hco p) as Hpg.
      cbn [fst snd]. rewrite in_calls_pages_app, in_calls_pages_one.
      change (flush_call reset_locals0)
        with {| call_slot := 0; call_offset := 0; call_mask := 0 |} in Hpg.
      rewrite in_call_pages_zero_mask in Hpg. tauto.
  - unfold pending, kvm_dirty_ring_used. rewrite Hri, Hdi, Z.sub_diag.
    reflexivity.
Qed.

(** ** Allocation *)

(** A successful allocation never claims more entries than the bytes it
    got can hold, gives the array exactly [size] zeroed entries and
    leaves the ring empty.  If the reserve fits ([rsvd <= size])
    [soft_limit] is [size - rsvd]; if it does not, the u32 subtraction
    wraps to a [soft_limit] above [size], and no ring of that geometry
    with at most [size] entries used reports soft-full. *)
Theorem alloc_geometry sizeof rsvd cpu pre ind idx bytes :
  12 <= sizeof ->
  is_u32 bytes ->
  let rsvd_entries := kvm_dirty_ring_get_rsvd_entries rsvd cpu in
  let ring := snd (kvm_dirty_ring_alloc sizeof rsvd cpu true pre ind idx bytes) in
  size ring * sizeof <= bytes /\
  dirty_gfns ring = replicate (Z.to_nat (size ring)) zero_gfn /\
  pending ring = [] /\
  (rsvd_entries <= size ring -> soft_limit ring = size ring - rsvd_entries) /\
  (size ring < rsvd_entries ->
   soft_limit ring = 2 ^ 32 + size ring - rsvd_entries /\
   forall ring',
     size ring' = size ring -> soft_limit ring' = soft_limit ring ->
     kvm_dirty_ring_used ring' <= size ring' ->
     kvm_dirty_ring_soft_full ring' = false).
Proof.
  intros Hsz Hb. cbv zeta.
  pose proof (alloc_entries_range sizeof Hsz bytes Hb) as He.
  pose proof (u32_range (rsvd + cpu)) as Hr.
  fold (kvm_dirty_ring_get_rsvd_entries rsvd cpu) in Hr.
  unfold kvm_dirty_ring_alloc. simpl.
  rewrite (u32_small (bytes / sizeof)) by (unfold is_u32, INT_MAX in *; lia).
  split; [|split; [reflexivity|split; [reflexivity|split]]].
  - rewrite Z.mul_comm. apply Z.mul_div_le. lia.
  - intros Hfit. apply u32_small. unfold is_u32, INT_MAX in *. lia.
  - intros Hwrap.
    assert (Hsl : u32 (bytes / sizeof - kvm_dirty_ring_get_rsvd_entries rsvd cpu)
                  = 2 ^ 32 + bytes / sizeof
                    - kvm_dirty_ring_get_rsvd_entries rsvd cpu).
    { unfold u32, is_u32, INT_MAX in *. zmod. }
    split; [exact Hsl|].
    intros ring' Hs' Hl' Hu. unfold kvm_dirty_ring_soft_full.
    apply Z.leb_gt. rewrite Hl', Hsl. unfold is_u32 in *. lia.
Qed.

(** ** The older per-vCPU revision *)

Lemma pervcpu_coalesce_count l s o :
  count (fst (PerVcpu.coalesce l s o)) = int (count l + 1).
Proof.
  unfold PerVcpu.coalesce.
  repeat match goal with |- context [if ?b then _ else _] => destruct b end;
    reflexivity.
Qed.

Lemma pervcpu_reset_index_mod ring :
  ring_pow2 ring ->
  PerVcpu.kvm_dirty_ring_reset_index ring = reset_index ring mod size ring.
Proof. intros Hp. apply (ring_slot_mod ring (reset_index ring) Hp). Qed.

Lemma mod_pred a b n : 0 < b -> a mod b = n -> 0 < n -> (a - 1) mod b = n - 1.
Proof.
  intros Hb Hn Hpos. symmetry.
  apply (Z.mod_unique (a - 1) b (a / b) (n - 1)).
  - left. pose proof (Z.mod_pos_bound a b Hb). lia.
  - pose proof (Z.div_mod a b ltac:(lia)). lia.
Qed.

(** The older loop: with a power-of-two [size] it leaves by its own
    condition after [(fetch - reset_index) mod size] iterations, having
    advanced [reset_index] and [count] by as much and nothing else in the
    ring. *)
Lemma pervcpu_reset_while_run (n : nat) : forall fuel fetch st,
  ring_pow2 (rs_ring st) ->
  0 <= fetch < size (rs_ring st) ->
  (fetch - reset_index (rs_ring st)) mod size (rs_ring st) = Z.of_nat n ->
  (n <= fuel)%nat ->
  exists st',
    PerVcpu.reset_while fuel fetch st = Some st' /\
    rs_ring st' =
      set_reset_index (rs_ring st)
        (if (n =? 0)%nat then reset_index (rs_ring st)
         else u32 (reset_index (rs_ring st) + Z.of_nat n)) /\
    count (rs_locals st') =
      (if (n =? 0)%nat then count (rs_locals st)
       else int (count (rs_locals st) + Z.of_nat n)) /\
    ((n =? 0)%nat = true ->
     rs_locals st' = rs_locals st /\ rs_calls st' = rs_calls st).
Proof.
  induction n as [|n IH]; intros fuel fetch st Hp Hf Hd Hfuel.
  - assert (E : PerVcpu.kvm_dirty_ring_reset_index (rs_ring st) = fetch).
    { rewrite pervcpu_reset_index_mod by assumption.
      apply Z.mod_divide in Hd; [|lia]. destruct Hd as [q Hq].
      replace (reset_index (rs_ring st)) with (fetch + (- q) * size (rs_ring st))
        by lia.
      rewrite Z.mod_add by lia. apply Z.mod_small. assumption. }
    exists st. apply Z.eqb_eq in E.
    destruct fuel; simpl; rewrite E; rewrite set_reset_index_same; auto.
  - destruct fuel as [|fuel]; [lia|].
    assert (Hne : PerVcpu.kvm_dirty_ring_reset_index (rs_ring st) <> fetch).
    { rewrite pervcpu_reset_index_mod by assumption. intros E.
      rewrite <- E, Zminus_mod_idemp_l, Z.sub_diag, Z.mod_0_l in Hd by lia.
      lia. }
    apply Z.eqb_neq in Hne. simpl PerVcpu.reset_while. rewrite Hne.
    set (st1 := PerVcpu.reset_body st).
    assert (Hring1 : rs_ring st1 =
              set_reset_index (rs_ring st) (u32 (reset_index (rs_ring st) + 1))).
    { unfold st1, PerVcpu.reset_body. simpl.
      destruct (PerVcpu.coalesce _ _ _); reflexivity. }
    assert (Hcount1 : count (rs_locals st1) = int (count (rs_locals st) + 1)).
    { unfold st1, PerVcpu.reset_body. simpl.
      pose proof (pervcpu_coalesce_count (rs_locals st)
        (slot (gfn_at (rs_ring st) (PerVcpu.kvm_dirty_ring_reset_index (rs_ring st))))
        (offset (gfn_at (rs_ring st) (PerVcpu.kvm_dirty_ring_reset_index (rs_ring st)))))
        as Hc.
      destruct (PerVcpu.coalesce _ _ _); exact Hc. }
    destruct (IH fuel fetch st1) as (st' & Hrun & Hring & Hcount & _).
    + rewrite Hring1. eapply ring_pow2_size; [|exact Hp]. reflexivity.
    + rewrite Hring1. simpl. assumption.
    + rewrite Hring1. simpl.
      rewrite Zminus_mod, (u32_mod_size (rs_ring st)) by assumption.
      rewrite <- Zminus_mod.
      replace (fetch - (reset_index (rs_ring st) + 1))
        with (fetch - reset_index (rs_ring st) - 1) by lia.
      rewrite (mod_pred _ _ (Z.of_nat (S n))); [lia | lia | assumption | lia].
    + lia.
    + exists st'. split; [exact Hrun|]. simpl Nat.eqb. cbv iota.
      rewrite Hring, Hcount, Hring1, Hcount1. simpl.
      split; [|split; [|discriminate]].
      * destruct (n =? 0)%nat eqn:En.
        -- apply Nat.eqb_eq in En. subst n. reflexivity.
        -- rewrite u32_add_l. do 2 f_equal. lia.
      * destruct (n =? 0)%nat eqn:En.
        -- apply Nat.eqb_eq in En. subst n. reflexivity.
        -- rewrite int_add_l. f_equal. lia.
Qed.

Lemma pervcpu_reset_spec ring :
  ring_wf ring -> ring_pow2 ring ->
  exists res,
    PerVcpu.kvm_dirty_ring_reset ring = Some res /\
    reset_ret res =
      int ((fetch_index (indices ring) - reset_index ring) mod size ring) /\
    reset_ring res =
      set_reset_index ring
        (u32 (reset_index ring
              + (fetch_index (indices ring) - reset_index ring) mod size ring)) /\
    ((fetch_index (indices ring) - reset_index ring) mod size ring = 0 ->
     reset_calls res = []) /\
    ((fetch_index (indices ring) - reset_index ring) mod size ring = 1 ->
     reset_calls res =
     [ {| call_slot :=
            slot (gfn_at ring (PerVcpu.kvm_dirty_ring_reset_index ring));
          call_offset :=
            offset (gfn_at ring (PerVcpu.kvm_dirty_ring_reset_index ring));
          call_mask := 1 |} ]).
Proof.
  intros Hwf Hp.
  pose proof Hp as (k & Hk & Hsz). pose proof (pow2_bounds k Hk) as Hk2.
  assert (Hspos : 0 < size ring) by lia.
  set (n := (fetch_index (indices ring) - reset_index ring) mod size ring).
  assert (Hn : 0 <= n < size ring) by (apply Z.mod_pos_bound; assumption).
  set (fetch := Z.land (fetch_index (indices ring)) (u32 (size ring - 1))).
  assert (Hfetch : fetch = fetch_index (indices ring) mod size ring)
    by (apply (ring_slot_mod ring (fetch_index (indices ring)) Hp)).
  assert (Hfr : 0 <= fetch < size ring)
    by (rewrite Hfetch; apply Z.mod_pos_bound; assumption).
  assert (Hnf : (fetch - reset_index ring) mod size ring = n).
  { rewrite Hfetch, Zminus_mod_idemp_l. reflexivity. }
  unfold PerVcpu.kvm_dirty_ring_reset. fold fetch.
  destruct (Z.eqb_spec fetch (PerVcpu.kvm_dirty_ring_reset_index ring)) as [E|E].
  - assert (Hn0 : n = 0).
    { rewrite <- Hnf, E, pervcpu_reset_index_mod by assumption.
      rewrite Zminus_mod_idemp_l, Z.sub_diag. apply Z.mod_0_l. lia. }
    eexists. split; [reflexivity|]. simpl. rewrite Hn0, Z.add_0_r.
    rewrite u32_small by apply Hwf. rewrite set_reset_index_same.
    repeat split; auto. lia.
  - assert (Hn1 : 0 < n).
    { destruct (Z.eq_dec n 0) as [Hz|]; [|lia]. exfalso. apply E.
      rewrite pervcpu_reset_index_mod by assumption.
      rewrite Hz in Hnf. apply Z.mod_divide in Hnf; [|lia].
      destruct Hnf as [q Hq].
      replace (reset_index ring) with (fetch + (- q) * size ring) by lia.
      rewrite Z.mod_add by lia. symmetry. apply Z.mod_small. assumption. }
    match goal with
    | |- context [PerVcpu.reset_while ?fuel fetch ?st] =>
        destruct (pervcpu_reset_while_run (Z.to_nat (n - 1)) fuel fetch st)
          as (st' & Hrun & Hring & Hcount & Hstay)
    end.
    + simpl. eapply ring_pow2_size; [|exact Hp]. reflexivity.
    + simpl. assumption.
    + simpl. rewrite Zminus_mod, (u32_mod_size ring) by assumption.
      rewrite <- Zminus_mod.
      replace (fetch - (reset_index ring + 1))
        with (fetch - reset_index ring - 1) by lia.
      rewrite (mod_pred _ _ n); [lia | lia | assumption | lia].
    + lia.
    + rewrite Hrun. eexists. split; [reflexivity|]. simpl in *.
      rewrite Hring, Hcount.
      destruct (Z.to_nat (n - 1) =? 0)%nat eqn:En.
      * apply Nat.eqb_eq in En. assert (n = 1) as -> by lia.
        destruct (Hstay eq_refl) as [Hl Hc]. rewrite Hl, Hc. simpl.
        repeat split; auto. lia.
      * apply Nat.eqb_neq in En. rewrite Z2Nat.id by lia.
        rewrite u32_add_l.
        replace (reset_index ring + 1 + (n - 1)) with (reset_index ring + n)
          by lia.
        replace (1 + (n - 1)) with n by lia.
        repeat split; auto; lia.
Qed.

(** In the older revision reset compares the indices reduced modulo
    [size]: it consumes [(fetch_index - reset_index) mod size] entries,
    returns that count and advances [reset_index] by it, touching no other
    field. *)
Theorem pervcpu_reset_advances ring :
  ring_wf ring -> ring_pow2 ring ->
  exists res,
    PerVcpu.kvm_dirty_ring_reset ring = Some res /\
    reset_ret res = (fetch_index (indices ring) - reset_index ring) mod size ring /\
    reset_ring res =
      set_reset_index ring
        (u32 (reset_index ring
              + (fetch_index (indices ring) - reset_index ring) mod size ring)).
Proof.
  intros Hwf Hp.
  destruct (pervcpu_reset_spec ring Hwf Hp) as (res & Hres & Hret & Hring & _).
  exists res. split; [assumption|]. split; [|assumption].
  rewrite Hret. apply int_small.
  destruct Hp as (k & Hk & Hsz). pose proof (pow2_bounds k Hk).
  pose proof (Z.mod_pos_bound (fetch_index (indices ring) - reset_index ring)
                (size ring) ltac:(lia)).
  lia.
Qed.

(** Hence a completely full ring cannot be reset in one go: once
    userspace has harvested all [size] entries and publishes
    [fetch_index = reset_index + size], the reduced indices coincide and
    the older reset returns 0, consumes nothing and calls nothing. *)
Theorem pervcpu_reset_full_ring_noop ring :
  ring_wf ring -> ring_pow2 ring ->
  fetch_index (indices ring) = u32 (reset_index ring + size ring) ->
  PerVcpu.kvm_dirty_ring_reset ring =
  Some {| reset_ret := 0; reset_ring := ring; reset_calls := [] |}.
Proof.
  intros Hwf Hp Hf.
  assert (Hn : (fetch_index (indices ring) - reset_index ring) mod size ring = 0).
  { rewrite Hf, Zminus_mod, (u32_mod_size ring) by assumption.
    rewrite <- Zminus_mod.
    replace (reset_index ring + size ring - reset_index ring)
      with (size ring) by lia.
    apply Z.mod_same. destruct Hp as (k & Hk & Hsz).
    pose proof (pow2_bounds k Hk). lia. }
  destruct (pervcpu_reset_spec ring Hwf Hp)
    as (res & Hres & Hret & Hring & Hcalls & _).
  rewrite Hres. f_equal. destruct res as [ret r cs]. simpl in *.
  rewrite Hn in *. rewrite Hret, Hring, (Hcalls eq_refl), Z.add_0_r.
  rewrite u32_small by apply Hwf. rewrite set_reset_index_same. reflexivity.
Qed.

(** The older reset seeds the batch from the first entry before its
    loop: a batch of one entry gives exactly one call, on that entry with
    mask 1. *)
Theorem pervcpu_reset_single_entry ring :
  ring_wf ring -> ring_pow2 ring ->
  (fetch_index (indices ring) - reset_index ring) mod size ring = 1 ->
  exists res,
    PerVcpu.kvm_dirty_ring_reset ring = Some res /\
    reset_ret res = 1 /\
    reset_calls res =
    [ {| call_slot := slot (gfn_at ring (ring_slot ring (reset_index ring)));
         call_offset := offset (gfn_at ring (ring_slot ring (reset_index ring)));
         call_mask := 1 |} ].
Proof.
  intros Hwf Hp Hn.
  destruct (pervcpu_reset_spec ring Hwf Hp)
    as (res & Hres & Hret & _ & _ & Hcalls).
  exists res. split; [assumption|]. rewrite Hret, Hn. split; [reflexivity|].
  apply Hcalls. assumption.
Qed.

Lemma u16_range x : 0 <= PerVcpu.u16 x < 2 ^ 16.
Proof. unfold PerVcpu.u16. apply Z.mod_pos_bound. lia. Qed.

(** The older push never overfills a ring of at most 65535 entries: it
    returns -EBUSY, leaving the ring alone, exactly when the ring is full;
    otherwise it raises the used count by one and returns 1 or 0 according
    to whether the new count has reached [soft_limit]. *)
Theorem pervcpu_push_respects_capacity ring s o :
  ring_wf ring ->
  size ring <= 65535 ->
  kvm_dirty_ring_used ring <= size ring ->
  let ret := fst (PerVcpu.kvm_dirty_ring_push ring s o) in
  let ring' := snd (PerVcpu.kvm_dirty_ring_push ring s o) in
  kvm_dirty_ring_used ring' <= size ring' /\
  (ret = - EBUSY <-> kvm_dirty_ring_used ring = size ring) /\
  (ret = - EBUSY -> ring' = ring) /\
  (ret <> - EBUSY ->
   kvm_dirty_ring_used ring' = kvm_dirty_ring_used ring + 1 /\
   ret = (if soft_limit ring <=? kvm_dirty_ring_used ring' then 1 else 0)).
Proof.
  intros Hwf Hsz Hused. cbv zeta.
  pose proof (u32_range (dirty_index ring - reset_index ring)) as Hu.
  fold (kvm_dirty_ring_used ring) in Hu.
  unfold PerVcpu.kvm_dirty_ring_push.
  fold (kvm_dirty_ring_used ring).
  assert (Hnum : PerVcpu.u16 (kvm_dirty_ring_used ring) = kvm_dirty_ring_used ring).
  { unfold PerVcpu.u16. apply Z.mod_small. unfold is_u32 in *. lia. }
  rewrite Hnum.
  destruct (Z.leb_spec (size ring) (kvm_dirty_ring_used ring)) as [Hfull|Hroom];
    simpl.
  - split; [assumption|]. split; [split; intros; [lia | reflexivity]|].
    split; [reflexivity|]. intros H. contradiction.
  - change (u32 (u32 (dirty_index ring + 1) - reset_index ring))
      with (kvm_dirty_ring_used
              (set_dirty_index ring (u32 (dirty_index ring + 1)))).
    change (kvm_dirty_ring_used (write_avail_index _ _))
      with (kvm_dirty_ring_used
              (set_dirty_index ring (u32 (dirty_index ring + 1)))).
    rewrite used_after_push.
    rewrite (u32_small (kvm_dirty_ring_used ring + 1))
      by (unfold is_u32 in *; lia).
    assert (Hnum' : PerVcpu.u16 (kvm_dirty_ring_used ring + 1) =
                    kvm_dirty_ring_used ring + 1).
    { unfold PerVcpu.u16. apply Z.mod_small. unfold is_u32 in *. lia. }
    rewrite Hnum'.
    split; [lia|]. split.
    + split; [|lia]. unfold EBUSY.
      destruct (soft_limit ring <=? kvm_dirty_ring_used ring + 1); lia.
    + split; [|auto]. unfold EBUSY.
      destruct (soft_limit ring <=? kvm_dirty_ring_used ring + 1); lia.
Qed.

(** The count the older push compares with [size] is a u16: on a ring of
    65536 entries or more it can never reach [size], and the push never
    returns -EBUSY, full ring or not. *)
Theorem pervcpu_push_u16_never_busy ring s o :
  65536 <= size ring ->
  fst (PerVcpu.kvm_dirty_ring_push ring s o) <> - EBUSY.
Proof.
  intros Hsz. unfold PerVcpu.kvm_dirty_ring_push.
  pose proof (u16_range (u32 (dirty_index ring - reset_index ring))) as Hn.
  destruct (Z.leb_spec (size ring)
              (PerVcpu.u16 (u32 (dirty_index ring - reset_index ring))));
    [lia|].
  simpl. unfold EBUSY.
  destruct (soft_limit _ <=? _); lia.
Qed.

(** ** LRU list selection *)

(** [page_off_lru] names the list [page_lru] names.  It hands the page
    back with Unevictable clear and SwapBacked as it was; Active is
    cleared too unless the page was Unevictable, in which case Active is
    not looked at.  When the page was not both Unevictable and Active,
    [page_lru] of the page afterwards is its inactive base list. *)
Theorem page_off_lru_agrees (inactive_anon inactive_file unevictable active : Z)
    (p : MmInline.page) :
  let lru := fst (MmInline.page_off_lru inactive_anon inactive_file
                    unevictable active p) in
  let p' := snd (MmInline.page_off_lru inactive_anon inactive_file
                   unevictable active p) in
  lru = MmInline.page_lru inactive_anon inactive_file unevictable active p /\
  MmInline.PageUnevictable p' = false /\
  MmInline.PageSwapBacked p' = MmInline.PageSwapBacked p /\
  MmInline.PageActive p' =
    MmInline.PageUnevictable p && MmInline.PageActive p /\
  (MmInline.PageUnevictable p && MmInline.PageActive p = false ->
   MmInline.page_lru inactive_anon inactive_file unevictable active p' =
   MmInline.page_lru_base_type inactive_anon inactive_file p).
Proof.
  cbv zeta. unfold MmInline.page_off_lru, MmInline.page_lru.
  destruct p as [sb [|] [|]]; simpl; repeat split; auto; discriminate.
Qed.

(** ** Ring selection *)

Lemma vcpu_eqb_refl v : vcpu_eqb v v = true.
Proof. unfold vcpu_eqb. rewrite !Z.eqb_refl. reflexivity. Qed.

(** [kvm_dirty_ring_get] and [kvm_dirty_ring_put] balance.  When get
    returns, the ring it returns is that of the running vCPU, or of
    [vcpus[0]] when there is none; it has taken [dirty_ring_lock] exactly
    if that ring is the one of [vcpus[0]], and the lock was free before;
    put in the same context, given the ring get returned, returns too,
    finds the ring it expects and leaves the VM as it was before get. *)
Theorem dirty_ring_get_put_balanced running_vcpu k g :
  kvm_dirty_ring_get running_vcpu k = Some g ->
  exists r,
    select_vcpu running_vcpu k = Some (get_ring_of g) /\
    (is_vcpu0 k (get_ring_of g) = true ->
     dirty_ring_lock k = false /\ get_kvm g = set_dirty_ring_lock k true) /\
    (is_vcpu0 k (get_ring_of g) = false -> get_kvm g = k) /\
    kvm_dirty_ring_put running_vcpu (get_kvm g) (get_ring_of g) = Some r /\
    put_warned_ring r = false /\
    put_kvm r = k.
Proof.
  unfold kvm_dirty_ring_get, kvm_dirty_ring_put.
  destruct (select_vcpu running_vcpu k) as [vcpu|] eqn:Esel; [|discriminate].
  assert (Hsel : forall held,
             select_vcpu running_vcpu (set_dirty_ring_lock k held)
             = Some vcpu) by (intros held; exact Esel).
  assert (H0 : forall held,
             is_vcpu0 (set_dirty_ring_lock k held) vcpu = is_vcpu0 k vcpu)
    by reflexivity.
  destruct (is_vcpu0 k vcpu) eqn:Eq.
  - destruct (dirty_ring_lock k) eqn:El; [discriminate|].
    intros [= <-]. cbn [get_ring_of get_kvm]. rewrite Hsel, H0, Eq.
    eexists. split; [reflexivity|]. split; [auto|].
    split; [discriminate|]. split; [reflexivity|].
    cbn [put_warned_ring put_kvm]. rewrite vcpu_eqb_refl.
    split; [reflexivity|]. destruct k. simpl in *. subst. reflexivity.
  - intros [= <-]. cbn [get_ring_of get_kvm]. rewrite Esel, Eq.
    eexists. split; [reflexivity|]. split; [discriminate|].
    split; [reflexivity|]. split; [reflexivity|].
    cbn [put_warned_ring put_kvm]. rewrite vcpu_eqb_refl. auto.
Qed.

(** In the older revision [delta] is an [int]: the u64 difference of the
    offsets is cut to its low 32 bits.  When that cut value lies in the
    forward window although the offsets are not that far apart (they
    differ by a multiple of 2^32 more), the entry joins the batch at bit
    [delta] without a call, and its own page is named by the batch only
    if it already was. *)
Theorem pervcpu_coalesce_truncates_delta l s o :
  cur_slot l = s ->
  0 <= int (u64 (o - cur_offset l)) < BITS_PER_LONG ->
  u64 (cur_offset l + int (u64 (o - cur_offset l))) <> o ->
  snd (PerVcpu.coalesce l s o) = [] /\
  cur_offset (fst (PerVcpu.coalesce l s o)) = cur_offset l /\
  (In (s, o) (call_pages (flush_call (fst (PerVcpu.coalesce l s o)))) ->
   In (s, o) (call_pages (flush_call l))).
Proof.
  intros Hs Hd Hne. unfold PerVcpu.coalesce.
  rewrite Hs, Z.eqb_refl.
  set (delta := int (u64 (o - cur_offset l))) in *.
  destruct ((0 <=? delta) && (delta <? BITS_PER_LONG)) eqn:Hfwd.
  2:{ apply andb_false_iff in Hfwd as [H%Z.leb_gt | H%Z.ltb_ge]; lia. }
  cbn [fst snd cur_offset]. split; [reflexivity|]. split; [reflexivity|].
  unfold BITS_PER_LONG in Hd.
  rewrite !in_call_pages. cbn [flush_call call_mask call_slot call_offset
                                 cur_slot cur_offset mask].
  intros (i & Hi & Hb & Hp). rewrite mask_forward_bits in Hb by lia.
  apply orb_true_iff in Hb as [Hb|Hb%Z.eqb_eq].
  - exists i. rewrite Hs. auto.
  - subst i. injection Hp as Hp. congruence.
Qed.

(** * Instances of the further properties *)

Ltac gfns_by_computation :=
  unfold gfns_wf;
  match goal with
  | |- Forall gfn_wf ?l =>
      let l' := eval vm_compute in l in change (Forall gfn_wf l')
  end;
  repeat (constructor; [unfold gfn_wf, is_u32, is_u64; simpl; lia|]);
  constructor.

Lemma example_ring_one_wf : ring_wf example_ring_one.
Proof. constructor; by_computation. Qed.

Lemma example_ring_one_gfns_wf : gfns_wf example_ring_one.
Proof. gfns_by_computation. Qed.

Lemma example_ring_one_pow2 : ring_pow2 example_ring_one.
Proof. exists 7. by_computation. Qed.

Lemma example_ring_three_wf : ring_wf example_ring_three.
Proof. constructor; by_computation. Qed.

Lemma example_ring_three_gfns_wf : gfns_wf example_ring_three.
Proof. gfns_by_computation. Qed.

Lemma example_ring_wrapped_wf : ring_wf example_ring_wrapped.
Proof. constructor; by_computation. Qed.

Lemma example_ring_wrapped_pow2 : ring_pow2 example_ring_wrapped.
Proof. exists 7. by_computation. Qed.

Lemma example_ring_full_wf : ring_wf example_ring_full.
Proof. constructor; by_computation. Qed.

Lemma example_ring_full_pow2 : ring_pow2 example_ring_full.
Proof. exists 7. by_computation. Qed.

Lemma reset_calls_cover_witness :
  exists res,
    kvm_dirty_ring_reset example_ring_one = Some res /\
    forall p, In p (calls_pages (reset_calls res)) <-> In p [(7, 9)].
Proof.
  destruct (kvm_dirty_ring_reset example_ring_one) as [res|] eqn:Hres;
    [|vm_compute in Hres; discriminate].
  exists res. split; [reflexivity|].
  exact (reset_calls_cover example_ring_one res example_ring_one_wf
           example_ring_one_gfns_wf ltac:(by_computation) Hres).
Defined.

Lemma reset_calls_shape_witness :
  exists res rest,
    kvm_dirty_ring_reset example_ring_one = Some res /\
    reset_calls res =
      {| call_slot := 0; call_offset := 0; call_mask := 0 |} :: rest /\
    1 <= Z.of_nat (length rest) <= 1.
Proof.
  destruct (kvm_dirty_ring_reset example_ring_one) as [res|] eqn:Hres;
    [|vm_compute in Hres; discriminate].
  destruct (reset_calls_shape example_ring_one res example_ring_one_wf
              ltac:(by_computation) Hres) as (rest & Hcalls & _ & Hlen).
  exists res, rest. split; [reflexivity|]. split; [exact Hcalls | exact Hlen].
Defined.

Lemma reset_touches_reset_index_only_witness :
  exists res,
    kvm_dirty_ring_reset example_ring_one = Some res /\
    dirty_gfns (reset_ring res) = dirty_gfns example_ring_one /\
    dirty_index (reset_ring res) = 1.
Proof.
  destruct (kvm_dirty_ring_reset example_ring_one) as [res|] eqn:Hres;
    [|vm_compute in Hres; discriminate].
  destruct (reset_touches_reset_index_only example_ring_one res
              example_ring_one_wf Hres) as (Hg & Hd & _).
  exists res. split; [reflexivity|]. split; [exact Hg | exact Hd].
Defined.

Lemma reset_drops_pending_witness :
  exists res,
    kvm_dirty_ring_reset example_ring_three = Some res /\
    pending example_ring_three =
      [ {| slot := 1; offset := 0 |}; {| slot := 2; offset := 7 |};
        {| slot := 1; offset := 1 |} ] /\
    reset_ret res = 2 /\
    (forall p, In p (calls_pages (reset_calls res)) <->
               In p [ (1, 0); (2, 7) ]) /\
    pending (reset_ring res) = [ {| slot := 1; offset := 1 |} ].
Proof.
  destruct (kvm_dirty_ring_reset example_ring_three) as [res|] eqn:Hres;
    [|vm_compute in Hres; discriminate].
  destruct (reset_drops_pending example_ring_three res
              example_ring_three_wf example_ring_three_gfns_wf
              ltac:(by_computation) ltac:(by_computation) Hres)
    as (Hret & Hpages & Hdrop & _).
  exists res. split; [reflexivity|]. split; [reflexivity|].
  split; [exact Hret|]. split; [exact Hpages | exact Hdrop].
Defined.

Lemma push_appends_pending_witness :
  pending (push_ring (kvm_dirty_ring_push None example_ring_wrapped 3 4)) =
  pending example_ring_wrapped ++ [ {| slot := 3; offset := 4 |} ].
Proof.
  exact (push_appends_pending None example_ring_wrapped 3 4
           example_ring_wrapped_wf example_ring_wrapped_pow2 eq_refl
           eq_refl eq_refl).
Defined.

Lemma push_full_overwrites_oldest_witness :
  push_warned (kvm_dirty_ring_push (Some 0) example_ring_full 3 4) = true /\
  kvm_dirty_ring_used
    (push_ring (kvm_dirty_ring_push (Some 0) example_ring_full 3 4)) = 129.
Proof.
  destruct (push_full_overwrites_oldest 0 example_ring_full 3 4
              example_ring_full_wf example_ring_full_pow2 eq_refl eq_refl)
    as (_ & Hw & _ & Hu).
  split; [exact Hw | exact Hu].
Defined.

Lemma push_no_vcpu_within_soft_limit_witness :
  kvm_dirty_ring_used
    (push_ring (kvm_dirty_ring_push None example_ring_wrapped 3 4)) = 3 + 1.
Proof.
  exact (proj1 (push_no_vcpu_within_soft_limit example_ring_wrapped 3 4
                  example_ring_wrapped_wf eq_refl)).
Defined.

Lemma push_stores_in_bounds_witness :
  0 <= ring_slot example_ring_odd (dirty_index example_ring_odd)
    < size example_ring_odd.
Proof.
  exact (proj1 (push_stores_in_bounds (Some 0) example_ring_odd 3 4
                  ltac:(constructor; by_computation) eq_refl
                  ltac:(by_computation) eq_refl)).
Defined.

Lemma push_harvest_round_trip_witness :
  exists ring res,
    push_seq example_ring (three_ascending None) = Some ring /\
    harvest_all ring = Some res /\
    reset_ret res = 3 /\
    (forall p, In p (calls_pages (reset_calls res)) <->
               In p [(1, 0); (1, 1); (1, 2)]) /\
    pending (reset_ring res) = [].
Proof.
  destruct (push_seq example_ring (three_ascending None)) as [ring|] eqn:Hseq;
    [|vm_compute in Hseq; discriminate].
  destruct (push_harvest_round_trip example_ring (three_ascending None) ring)
    as (res & Hres & Hret & Hpages & Hpend);
    [ constructor; by_computation | exists 7; by_computation | reflexivity
    | reflexivity
    | repeat (constructor; [unfold gfn_wf, is_u32, is_u64; simpl; lia|]);
      constructor
    | by_computation | by_computation | exact Hseq |].
  exists ring, res. repeat split; try assumption; apply Hpages.
Defined.

Lemma alloc_geometry_witness :
  size example_ring * 16 <= 2048 /\
  soft_limit example_ring = size example_ring - 64.
Proof.
  destruct (alloc_geometry 16 64 0 zero_ring zero_indices 0 2048
              ltac:(lia) ltac:(by_computation)) as (Hfit & _ & _ & Hsl & _).
  split; [exact Hfit|]. apply Hsl. by_computation.
Defined.

Lemma dirty_ring_get_put_balanced_witness :
  (exists g r,
     kvm_dirty_ring_get None example_kvm = Some g /\
     get_ring_of g = example_vcpu0 /\
     dirty_ring_lock (get_kvm g) = true /\
     kvm_dirty_ring_put None (get_kvm g) (get_ring_of g) = Some r /\
     put_kvm r = example_kvm) /\
  (exists g r,
     kvm_dirty_ring_get (Some example_vcpu1) example_kvm_no_vcpu0 = Some g /\
     get_ring_of g = example_vcpu1 /\
     get_kvm g = example_kvm_no_vcpu0 /\
     kvm_dirty_ring_put (Some example_vcpu1) (get_kvm g) (get_ring_of g)
     = Some r /\
     put_kvm r = example_kvm_no_vcpu0).
Proof.
  split.
  - destruct (kvm_dirty_ring_get None example_kvm) as [g|] eqn:Hget;
      [|vm_compute in Hget; discriminate].
    destruct (dirty_ring_get_put_balanced None example_kvm g Hget)
      as (r & Hsel & Hlock & _ & Hput & _ & Hk).
    injection Hsel as Hsel.
    exists g, r. split; [reflexivity|]. split; [symmetry; exact Hsel|].
    split; [|split; [exact Hput | exact Hk]].
    destruct Hlock as [_ ->]; [rewrite <- Hsel|]; reflexivity.
  - destruct (kvm_dirty_ring_get (Some example_vcpu1) example_kvm_no_vcpu0)
      as [g|] eqn:Hget; [|vm_compute in Hget; discriminate].
    destruct (dirty_ring_get_put_balanced (Some example_vcpu1)
                example_kvm_no_vcpu0 g Hget)
      as (r & Hsel & _ & Hfree & Hput & _ & Hk).
    injection Hsel as Hsel.
    exists g, r. split; [reflexivity|]. split; [symmetry; exact Hsel|].
    split; [|split; [exact Hput | exact Hk]].
    apply Hfree. rewrite <- Hsel. reflexivity.
Defined.

Lemma pervcpu_reset_advances_witness :
  exists res,
    PerVcpu.kvm_dirty_ring_reset example_ring_one = Some res /\
    reset_ret res = 1 /\
    reset_index (reset_ring res) = 1.
Proof.
  destruct (pervcpu_reset_advances example_ring_one example_ring_one_wf
              example_ring_one_pow2) as (res & Hres & Hret & Hring).
  exists res. split; [exact Hres|]. split; [exact Hret|].
  rewrite Hring. reflexivity.
Defined.

Lemma pervcpu_reset_full_ring_noop_witness :
  kvm_dirty_ring_used example_ring_full_harvested = 128 /\
  PerVcpu.kvm_dirty_ring_reset example_ring_full_harvested =
  Some {| reset_ret := 0; reset_ring := example_ring_full_harvested;
          reset_calls := [] |}.
Proof.
  split; [reflexivity|].
  apply (pervcpu_reset_full_ring_noop example_ring_full_harvested).
  - constructor; by_computation.
  - exists 7. by_computation.
  - reflexivity.
Defined.

Lemma pervcpu_reset_single_entry_witness :
  exists res,
    PerVcpu.kvm_dirty_ring_reset example_ring_one = Some res /\
    reset_ret res = 1 /\
    reset_calls res =
    [ {| call_slot := 7; call_offset := 9; call_mask := 1 |} ].
Proof.
  exact (pervcpu_reset_single_entry example_ring_one example_ring_one_wf
           example_ring_one_pow2 eq_refl).
Defined.

Lemma pervcpu_push_respects_capacity_witness :
  kvm_dirty_ring_used (snd (PerVcpu.kvm_dirty_ring_push example_ring_wrapped 3 4))
    <= size (snd (PerVcpu.kvm_dirty_ring_push example_ring_wrapped 3 4)).
Proof.
  exact (proj1 (pervcpu_push_respects_capacity example_ring_wrapped 3 4
                  example_ring_wrapped_wf ltac:(by_computation)
                  ltac:(by_computation))).
Defined.

Lemma pervcpu_push_u16_never_busy_witness :
  kvm_dirty_ring_used example_ring_large = size example_ring_large /\
  fst (PerVcpu.kvm_dirty_ring_push example_ring_large 3 4) <> - EBUSY.
Proof.
  split; [reflexivity|].
  apply (pervcpu_push_u16_never_busy example_ring_large 3 4).
  cbn [size example_ring_large]. lia.
Defined.

Lemma pervcpu_coalesce_truncates_delta_witness :
  snd (PerVcpu.coalesce (seeded 1 0 1) 1 (2 ^ 32 + 3)) = [] /\
  ~ In (1, 2 ^ 32 + 3)
      (call_pages (flush_call (fst (PerVcpu.coalesce (seeded 1 0 1) 1
                                      (2 ^ 32 + 3))))).
Proof.
  destruct (pervcpu_coalesce_truncates_delta (seeded 1 0 1) 1 (2 ^ 32 + 3)
              eq_refl ltac:(by_computation) ltac:(by_computation))
    as (Hc & _ & Hin).
  split; [exact Hc|]. intros H. apply Hin in H.
  apply in_call_pages_seed in H; [|by_computation]. discriminate.
Defined.
